(** * httpserver: start-up, readiness and shutdown of an HTTP server handle

    A shallow embedding of package [httpserver] of ssrf-sheriff: the
    keep-alive listener wrapper, the readiness prober
    ([waitUntilAvailable], [wrapNetErr]) and the lifecycle [Handle]
    ([NewHandle], [Addr], [Start], [Shutdown]).

    Conventions of the embedding.
    - A Go [error] is [option GoError]; [None] is the nil error.
    - A Go call returning [(T, error)] is a sum [T + GoError]: the callee
      follows the convention that exactly one of the two is non-nil.
    - Calls that leave the process (listen, dial, socket reads and writes,
      [http.Server.Shutdown]) are answered by the environment; the main
      goroutine records each of them in an I/O log, and the environment may
      answer as a function of that log.
    - The goroutine launched by [Start] and its channel live in the [World];
      what the goroutine does while the caller is busy is a list of [Move]s
      supplied by the scheduler. *)

From Stdlib Require Import ZArith String Ascii List Lia.
From stdpp Require Import base list.
Import ListNotations.
Local Open Scope string_scope.
Local Open Scope list_scope.

(** ** Errors *)

(** The error values the package creates, compares against or inspects.
    Formatted errors keep their format string and arguments. *)
#[warnings="-register-all"]
Inductive GoError : Type :=
| ErrServerClosed                      (* http.ErrServerClosed *)
| DeadlineExceeded                     (* context.DeadlineExceeded *)
| Canceled                             (* context.Canceled *)
| NetErr (timeout : bool) (text : string)   (* some other net.Error value *)
| ErrorsNew (text : string)            (* errors.New(text) *)
| Errorf (format : string) (args : list FmtArg)   (* fmt.Errorf(format, args...) *)
with FmtArg : Type :=
| AStr (s : string)
| ASprintf (format : string) (args : list FmtArg)  (* a string built by fmt.Sprintf *)
| AErr (e : option GoError)
| ATime (t : Z).

Definition error : Type := option GoError.

Definition Time : Type := Z.
Definition Duration : Type := Z.

(** [err.(net.Error)] succeeds and [Timeout()] answers true.
    [context.DeadlineExceeded] has a [Timeout] method that returns true; the
    values of [errors.New] and [fmt.Errorf] have no such method. *)
Definition is_net_timeout (e : GoError) : bool :=
  match e with
  | DeadlineExceeded => true
  | NetErr timeout _ => timeout
  | ErrServerClosed | Canceled | ErrorsNew _ | Errorf _ _ => false
  end.

Definition wrapNetErr (err : error) (msg : string) (args : list FmtArg) : error :=
  match err with
  | None => None
  | Some e =>
      if is_net_timeout e then Some DeadlineExceeded
      else
        let msg' := match args with
                    | [] => AStr msg
                    | _ :: _ => ASprintf msg args
                    end in
        Some (Errorf "%s: %v" [msg'; AErr (Some e)])
  end.

(** ** The keep-alive listener *)

Definition Nanosecond : Duration := 1%Z.
Definition Second : Duration := (1000000000 * Nanosecond)%Z.
Definition Minute : Duration := (60 * Second)%Z.

(** An accepted TCP connection with the two socket options the wrapper
    touches. *)
Record TCPConn : Type := mkTCPConn {
  tc_id : nat;
  tc_keepAlive : bool;
  tc_keepAlivePeriod : Duration
}.

(** The source discards the errors of both setters. *)
Definition SetKeepAlive (keepalive : bool) (tc : TCPConn) : TCPConn :=
  mkTCPConn (tc_id tc) keepalive (tc_keepAlivePeriod tc).

Definition SetKeepAlivePeriod (d : Duration) (tc : TCPConn) : TCPConn :=
  mkTCPConn (tc_id tc) (tc_keepAlive tc) d.

(** A bound socket: what [net.Listen] hands out. *)
Record Socket : Type := mkSocket {
  sock_id : nat;
  sock_addr : string               (* Addr().String() *)
}.

(** The dynamic types a [net.Listener] value of this package can have. *)
Inductive Listener : Type :=
| TCPListener (s : Socket)            (* *net.TCPListener *)
| OtherListener (s : Socket)          (* any other listener, e.g. *net.UnixListener *)
| tcpKeepAliveListener (s : Socket).  (* tcpKeepAliveListener{*net.TCPListener} *)

Definition ln_socket (l : Listener) : Socket :=
  match l with
  | TCPListener s | OtherListener s | tcpKeepAliveListener s => s
  end.

Definition ln_Addr (l : Listener) : string := sock_addr (ln_socket l).

(** [tcpKeepAliveListener.Accept]; [AcceptTCP] is the embedded listener's
    method, answered by the environment. *)
Definition Accept (AcceptTCP : Socket -> TCPConn + GoError) (ln : Socket)
  : TCPConn + GoError :=
  match AcceptTCP ln with
  | inr err => inr err
  | inl tc =>
      let tc := SetKeepAlive true tc in
      let tc := SetKeepAlivePeriod (3 * Minute)%Z tc in
      inl tc
  end.

(** ** The I/O log *)

Inductive Event : Type :=
| EvListen (network address : string)
| EvDial (network address : string) (r : nat + GoError)
| EvSetDeadline (conn : nat) (t : Time) (r : error)
| EvWrite (conn : nat) (data : string) (r : error)
| EvRead (conn : nat) (len : nat) (r : error)
| EvConnClose (conn : nat)
| EvListenerClose (l : Listener)
| EvSrvShutdown (r : error).

Definition Hist : Type := list Event.

(** [DefaultListenFunc]; [net_Listen] stands for [net.Listen]. *)
Definition DefaultListenFunc (net_Listen : Hist -> string -> string -> Listener + GoError)
    (hist : Hist) (network address : string) : Listener + GoError :=
  match net_Listen hist network address with
  | inl (TCPListener tcpListener) => inl (tcpKeepAliveListener tcpListener)
  | r => r
  end.

(** ** The readiness prober *)

Record Context : Type := mkContext {
  ctx_Deadline : option Time;     (* Deadline(): Some t when ok *)
  ctx_cancelable : bool;          (* Done() is a non-nil channel *)
  ctx_Err : error                 (* Err() *)
}.

(** A connection, as far as the prober uses one. The outcome of a write or
    a read depends on the deadline in force on the socket. A nil error from
    [Write] means the whole buffer went out, a nil error from [Read] on the
    one-byte buffer means a byte came in; the source discards the counts. *)
Record Conn : Type := mkConn {
  conn_id : nat;
  conn_SetDeadline : Time -> error;
  conn_Write : option Time -> string -> error;
  conn_Read : option Time -> nat -> error
}.

Record dialer : Type := mkDialer {
  DialContext : Hist -> Context -> string -> string -> Conn + GoError
}.

Definition LF : string := String (ascii_of_nat 10) EmptyString.

Definition _invalidHTTPRequestLine : string := ("INVALID" ++ LF ++ LF)%string.

(** The write of the request line and the read of one byte, under the
    deadline [dl] in force on the socket. *)
Definition exchange (conn : Conn) (dl : option Time) : error * list Event :=
  let id := conn_id conn in
  let w := conn_Write conn dl _invalidHTTPRequestLine in
  match w with
  | Some err =>
      (wrapNetErr (Some err) "failed to write request to server" [],
       [EvWrite id _invalidHTTPRequestLine w])
  | None =>
      let r := conn_Read conn dl 1 in
      (match r with
       | Some err => wrapNetErr (Some err) "failed to read response from server" []
       | None => None
       end,
       [EvWrite id _invalidHTTPRequestLine w; EvRead id 1 r])
  end.

(** The body of [waitUntilAvailable] after the dial: what runs between
    [defer conn.Close()] and the deferred call. *)
Definition probe_conn (ctx : Context) (conn : Conn) : error * list Event :=
  let id := conn_id conn in
  match ctx_Deadline ctx with
  | Some deadline =>
      match conn_SetDeadline conn deadline with
      | Some err =>
          (Some (Errorf "failed to set connection deadline to %v: %v"
                        [ATime deadline; AErr (Some err)]),
           [EvSetDeadline id deadline (Some err)])
      | None =>
          let '(r, evs) := exchange conn (Some deadline) in
          (r, EvSetDeadline id deadline None :: evs)
      end
  | None => exchange conn None
  end.

Definition waitUntilAvailable (ctx : Context) (d : dialer) (addr : string) (hist : Hist)
  : error * list Event :=
  match DialContext d hist ctx "tcp" addr with
  | inr err =>
      (wrapNetErr (Some err) "failed to dial to %q" [AStr addr],
       [EvDial "tcp" addr (inr err)])
  | inl conn =>
      let '(r, evs) := probe_conn ctx conn in
      (r, EvDial "tcp" addr (inl (conn_id conn)) :: evs ++ [EvConnClose (conn_id conn)])
  end.

(** ** Goroutines and channels *)

(** A channel of errors. *)
Record Chan : Type := mkChan {
  ch_cap : nat;
  ch_buf : list error;
  ch_closed : bool
}.

(** [make(chan error, n)] *)
Definition make_chan (n : nat) : Chan := mkChan n [] false.

(** Where the goroutine launched by [Start] stands in its body
    [err := h.srv.Serve(ln); errCh <- err; close(errCh)]. *)
Inductive ServePC : Type :=
| Serving                 (* inside srv.Serve(ln) *)
| Returned (err : error)  (* Serve returned err; next: errCh <- err *)
| Sent (err : error)      (* next: close(errCh) *)
| Exited (err : error).   (* the goroutine is over *)

Inductive ChanOp : Type :=
| OpSend (v : error)
| OpClose
| OpRecv (v : error).

(** One [Start] that got as far as its [go] statement: the listener being
    served, the channel made for it, the goroutine that holds the sending
    end, and the operations performed on the channel so far. *)
Record Cycle : Type := mkCycle {
  cy_ln : Listener;
  cy_ch : Chan;
  cy_pc : ServePC;
  cy_ops : list ChanOp
}.

(** A channel value is the index of its cycle; the nil channel is [None]. *)
Definition ChanRef : Type := option nat.

Record World : Type := mkWorld {
  cycles : list Cycle;
  io_log : Hist
}.

Definition empty_world : World := mkWorld [] [].

Definition log_io (evs : list Event) (w : World) : World :=
  mkWorld (cycles w) (io_log w ++ evs).

Definition set_cycle (c : nat) (cy : Cycle) (w : World) : World :=
  mkWorld (<[c := cy]> (cycles w)) (io_log w).

(** [errCh := make(chan error, 1); go func() { ... }()] *)
Definition go_Serve (l : Listener) (w : World) : nat * World :=
  (length (cycles w),
   mkWorld (cycles w ++ [mkCycle l (make_chan 1) Serving []]) (io_log w)).

(** The sends made by the goroutine and its close, in order. *)
Definition producer_ops (cy : Cycle) : list ChanOp :=
  List.filter (fun o => match o with OpRecv _ => false | _ => true end) (cy_ops cy).

Definition sends (cy : Cycle) : list error :=
  omap (fun o => match o with OpSend v => Some v | _ => None end) (cy_ops cy).

(** The next statement of the goroutine of cycle [c], when it can run:
    the send needs room in the buffer, the close always can. [None]: the
    goroutine is inside [Serve], is over, or its send has no room. *)
Definition task_step (c : nat) (w : World) : option World :=
  match cycles w !! c with
  | None => None
  | Some cy =>
      let ch := cy_ch cy in
      match cy_pc cy with
      | Returned err =>
          if ch_closed ch then None
          else if Nat.ltb (length (ch_buf ch)) (ch_cap ch) then
            Some (set_cycle c
                    (mkCycle (cy_ln cy)
                             (mkChan (ch_cap ch) (ch_buf ch ++ [err]) false)
                             (Sent err) (cy_ops cy ++ [OpSend err])) w)
          else None
      | Sent err =>
          Some (set_cycle c
                  (mkCycle (cy_ln cy)
                           (mkChan (ch_cap ch) (ch_buf ch) true)
                           (Exited err) (cy_ops cy ++ [OpClose])) w)
      | Serving | Exited _ => None
      end
  end.

(** What happens in the background while the caller is busy or waits:
    the environment makes a [Serve] call return, or the scheduler runs the
    next statement of a goroutine. *)
Inductive Move : Type :=
| ServeReturns (c : nat) (err : error)
| Step (c : nat).

Definition run_move (w : World) (m : Move) : World :=
  match m with
  | ServeReturns c err =>
      match cycles w !! c with
      | Some cy =>
          match cy_pc cy with
          | Serving => set_cycle c (mkCycle (cy_ln cy) (cy_ch cy) (Returned err) (cy_ops cy)) w
          | _ => w
          end
      | None => w
      end
  | Step c => match task_step c w with Some w' => w' | None => w end
  end.

Definition run_moves (ms : list Move) (w : World) : World := fold_left run_move ms w.

(** A receive that does not wait ([select] with a [default] branch):
    a buffered value, or the zero value of a closed and drained channel. *)
Definition try_recv (c : nat) (w : World) : option (error * World) :=
  match cycles w !! c with
  | None => None
  | Some cy =>
      let ch := cy_ch cy in
      match ch_buf ch with
      | v :: rest =>
          Some (v, set_cycle c
                     (mkCycle (cy_ln cy) (mkChan (ch_cap ch) rest (ch_closed ch))
                              (cy_pc cy) (cy_ops cy ++ [OpRecv v])) w)
      | [] =>
          if ch_closed ch
          then Some (None, set_cycle c
                             (mkCycle (cy_ln cy) ch (cy_pc cy) (cy_ops cy ++ [OpRecv None])) w)
          else None
      end
  end.

(** A receive that waits, [<-ch], once the environment has made its
    moves. While nothing can be received the scheduler, being fair, runs
    the sending goroutine; when that goroutine cannot run either, nothing
    will ever arrive. *)
Inductive Recv : Type :=
| Got (v : error) (w : World)
| Never                       (* the receive blocks forever *)
| OutOfFuel.

Fixpoint recv_wait (fuel : nat) (c : nat) (w : World) : Recv :=
  match try_recv c w with
  | Some (v, w') => Got v w'
  | None =>
      match fuel with
      | O => OutOfFuel
      | S fuel' =>
          match task_step c w with
          | Some w' => recv_wait fuel' c w'
          | None => Never
          end
      end
  end.

(** The goroutine has two statements left at most, the send and the close. *)
Definition recv (ch : ChanRef) (w : World) : Recv :=
  match ch with
  | None => Never              (* a receive from a nil channel *)
  | Some c => recv_wait 2 c w
  end.

(** ** The handle *)

Record Server : Type := mkServer {
  srv_Addr : string;
  srv_Shutdown : Hist -> Context -> error      (* http.Server.Shutdown *)
}.

Record Handle : Type := mkHandle {
  srv : Server;
  ln : option Listener;
  errCh : ChanRef;
  listenFunc : Hist -> string -> string -> Listener + GoError;
  newDialerFunc : unit -> dialer
}.

Inductive HandleOption : Type :=
| ListenFunc (f : Hist -> string -> string -> Listener + GoError)
| NewDialerFunc (f : unit -> dialer).

Definition apply_option (h : Handle) (opt : HandleOption) : Handle :=
  match opt with
  | ListenFunc f => mkHandle (srv h) (ln h) (errCh h) f (newDialerFunc h)
  | NewDialerFunc f => mkHandle (srv h) (ln h) (errCh h) (listenFunc h) f
  end.

Section Package.
(** [net.Listen] and the behaviour of a [net.Dialer]. *)
Variable net_Listen : Hist -> string -> string -> Listener + GoError.
Variable net_Dialer : dialer.

Definition newDialer (_ : unit) : dialer := net_Dialer.

Definition NewHandle (s : Server) (opts : list HandleOption) : Handle :=
  fold_left apply_option opts
    (mkHandle s None None (DefaultListenFunc net_Listen) newDialer).
End Package.

Definition Addr (h : Handle) : option string :=
  match ln h with
  | None => None
  | Some l => Some (ln_Addr l)
  end.

(** How a call ends for its caller. *)
Inductive Outcome : Type :=
| Returns (err : error)
| BlocksForever.

Definition errAlreadyRunning : GoError := ErrorsNew "server is already running".

(** [Start], up to the point where the prober has answered: the listener,
    the fresh channel, the prober's answer and the world in which the
    [select] runs. [during] is what went on in the background since the
    [go] statement. *)
Definition Start_probe (ctx : Context) (during : list Move) (h : Handle)
    (l : Listener) (w : World) : nat * error * World :=
  let '(errCh', w) := go_Serve l w in
  let d := newDialerFunc h () in
  let '(err, evs) := waitUntilAvailable ctx d (ln_Addr l) (io_log w) in
  (errCh', err, run_moves during (log_io evs w)).

(** [addr := h.srv.Addr; if addr == "" { addr = ":0" }] *)
Definition listen_addr (s : Server) : string :=
  if String.eqb (srv_Addr s) "" then ":0" else srv_Addr s.

Definition Start (ctx : Context) (during : list Move) (h : Handle) (w : World)
  : Outcome * Handle * World :=
  match ln h with
  | Some _ => (Returns (Some errAlreadyRunning), h, w)
  | None =>
      let addr := listen_addr (srv h) in
      let r := listenFunc h (io_log w) "tcp" addr in
      let w := log_io [EvListen "tcp" addr] w in
      match r with
      | inr err =>
          (Returns (Some (Errorf "error starting HTTP server on %q: %v"
                                 [AStr addr; AErr (Some err)])), h, w)
      | inl l =>
          let '(errCh', perr, w) := Start_probe ctx during h l w in
          match perr with
          | Some err =>
              match try_recv errCh' w with
              | Some (err', w) =>
                  (Returns (Some (Errorf "error starting HTTP server: %v" [AErr err'])), h, w)
              | None =>
                  (Returns (wrapNetErr (Some err) "error waiting for server to start up" []),
                   h, log_io [EvListenerClose l] w)
              end
          | None =>
              (Returns None,
               mkHandle (srv h) (Some l) (Some errCh') (listenFunc h) (newDialerFunc h), w)
          end
      end
  end.

(** [err != http.ErrServerClosed], negated. *)
Definition is_ErrServerClosed (err : error) : bool :=
  match err with Some ErrServerClosed => true | _ => false end.

(** [during] is all that goes on in the background from the call of
    [h.srv.Shutdown] on, the wait on the channel included: if [Serve] is ever
    to return for this wait, that is one of these moves. *)
Definition Shutdown (ctx : Context) (during : list Move) (h : Handle) (w : World)
  : Outcome * Handle * World :=
  let r := srv_Shutdown (srv h) (io_log w) ctx in
  let w := log_io [EvSrvShutdown r] w in
  match r with
  | Some err => (Returns (Some err), h, w)
  | None =>
      let w := run_moves during w in
      match recv (errCh h) w with
      | Got err w =>
          if is_ErrServerClosed err
          then (Returns None,
                mkHandle (srv h) None (errCh h) (listenFunc h) (newDialerFunc h), w)
          else (Returns err, h, w)
      | Never | OutOfFuel => (BlocksForever, h, w)
      end
  end.

(** ** Sequences of lifecycle calls *)

Inductive Call : Type :=
| CallStart (ctx : Context) (during : list Move)
| CallShutdown (ctx : Context) (during : list Move).

Definition do_call (c : Call) (h : Handle) (w : World) : Outcome * Handle * World :=
  match c with
  | CallStart ctx during => Start ctx during h w
  | CallShutdown ctx during => Shutdown ctx during h w
  end.

(** The state machine of the handle as the specification words it:
    [Idle -> Running -> Idle]. A handle becomes [Running], bound to the
    listener it obtained, when a [Start] succeeds; it is reset to [Idle]
    when a [Shutdown] takes the success path, the one on which graceful
    shutdown reported no error and the completion signal delivered the
    "server closed" sentinel; nothing else changes the state. *)
Inductive Lifecycle : Type :=
| Idle
| Running (bound : Listener).

Definition sentinel_delivered (ctx : Context) (during : list Move) (h : Handle) (w : World)
  : bool :=
  match srv_Shutdown (srv h) (io_log w) ctx with
  | Some _ => false
  | None =>
      match recv (errCh h) (run_moves during (log_io [EvSrvShutdown None] w)) with
      | Got v _ => is_ErrServerClosed v
      | _ => false
      end
  end.

Definition lifecycle_step (s : Lifecycle) (c : Call) (h : Handle) (w : World) : Lifecycle :=
  match c with
  | CallStart ctx during =>
      match Start ctx during h w, listenFunc h (io_log w) "tcp" (listen_addr (srv h)) with
      | (Returns None, _, _), inl l => Running l
      | _, _ => s
      end
  | CallShutdown ctx during =>
      if sentinel_delivered ctx during h w then Idle else s
  end.

(** The calls run in order on one handle; a call that blocks forever is
    the last one its caller makes. *)
Fixpoint run_calls (cs : list Call) (s : Lifecycle) (h : Handle) (w : World)
  : Lifecycle * Handle * World :=
  match cs with
  | [] => (s, h, w)
  | c :: cs' =>
      match do_call c h w with
      | (Returns _, h', w') => run_calls cs' (lifecycle_step s c h w) h' w'
      | (BlocksForever, h', w') => (lifecycle_step s c h w, h', w')
      end
  end.

(** ** A small environment to run the model on *)

Module Fixture.
Definition conn_with (w r : error) : Conn :=
  mkConn 7 (fun _ => None) (fun _ _ => w) (fun _ _ => r).

Definition conn_ok : Conn := conn_with None None.

Definition dial_to (c : Conn) : dialer := mkDialer (fun _ _ _ _ => inl c).
Definition dial_fails (e : GoError) : dialer := mkDialer (fun _ _ _ _ => inr e).

Definition sock : Socket := mkSocket 1 "127.0.0.1:40123".
Definition listen_tcp : Hist -> string -> string -> Listener + GoError :=
  fun _ _ _ => inl (TCPListener sock).

Definition background : Context := mkContext None false None.
Definition cancelled : Context := mkContext None true (Some Canceled).
Definition with_deadline : Context := mkContext (Some 5000%Z) true None.

Definition server : Server := mkServer "" (fun _ _ => None).

Definition timed_out : GoError := NetErr true "i/o timeout".
Definition refused : GoError := NetErr false "connection refused".

(** A handle on [server] whose prober finds the server ready. *)
Definition h0 : Handle := NewHandle listen_tcp (dial_to conn_ok) server [].

(** A handle whose prober cannot connect. *)
Definition h_unreachable : Handle :=
  NewHandle listen_tcp (dial_fails refused) server [].

(** [Start] succeeds; then the server is shut down, [Serve] returns the
    sentinel and the goroutine sends it. *)
Definition started : Outcome * Handle * World := Start background [] h0 empty_world.
Definition h1 : Handle := snd (fst started).
Definition w1 : World := snd started.

Definition stopped : Outcome * Handle * World :=
  Shutdown background [ServeReturns 0 (Some ErrServerClosed); Step 0] h1 w1.
Definition h2 : Handle := snd (fst stopped).
Definition w2 : World := snd stopped.

(** Instead: [Serve] fails on its own, the goroutine sends the error and
    closes the channel, and a first [Shutdown] reports that error. *)
Definition accept_failed : GoError := ErrorsNew "accept tcp: too many open files".
Definition crashed : Outcome * Handle * World :=
  Shutdown background [ServeReturns 0 (Some accept_failed); Step 0; Step 0] h1 w1.
Definition h1' : Handle := snd (fst crashed).
Definition w1' : World := snd crashed.
End Fixture.

(** ** Vocabulary of the statements *)

Inductive ProbeStep : Type := StepDial | StepWrite | StepRead.

(** The descriptive message the prober attaches to a failure of a step. *)
Definition step_message (st : ProbeStep) (addr : string) : FmtArg :=
  match st with
  | StepDial => ASprintf "failed to dial to %q" [AStr addr]
  | StepWrite => AStr "failed to write request to server"
  | StepRead => AStr "failed to read response from server"
  end.

(** In the trace [evs] of a probe, step [st] was performed and produced
    the error [err]. *)
Definition step_failed (evs : list Event) (addr : string) (st : ProbeStep) (err : GoError)
  : Prop :=
  match st with
  | StepDial => In (EvDial "tcp" addr (inr err)) evs
  | StepWrite => exists id, In (EvWrite id _invalidHTTPRequestLine (Some err)) evs
  | StepRead => exists id, In (EvRead id 1 (Some err)) evs
  end.

(** In the trace [evs] the dial gave connection [id], the invalid request
    line went out on it and one byte came back. *)
Definition probe_completed (evs : list Event) (addr : string) (id : nat) : Prop :=
  In (EvDial "tcp" addr (inl id)) evs
  /\ In (EvWrite id _invalidHTTPRequestLine None) evs
  /\ In (EvRead id 1 None) evs.

(** [EvConnClose id] is the last event of [evs] and occurs nowhere before. *)
Definition closed_last (evs : list Event) (id : nat) : Prop :=
  exists before, evs = before ++ [EvConnClose id] /\ ~ In (EvConnClose id) before.

(** What one statement of the goroutine, or the environment making its
    [Serve] return, does to a cycle. *)
Inductive producer_step (cy : Cycle) : Cycle -> Prop :=
| ps_returns (err : error) :
    cy_pc cy = Serving ->
    producer_step cy (mkCycle (cy_ln cy) (cy_ch cy) (Returned err) (cy_ops cy))
| ps_send (err : error) :
    cy_pc cy = Returned err ->
    ch_closed (cy_ch cy) = false ->
    length (ch_buf (cy_ch cy)) < ch_cap (cy_ch cy) ->
    producer_step cy
      (mkCycle (cy_ln cy)
               (mkChan (ch_cap (cy_ch cy)) (ch_buf (cy_ch cy) ++ [err]) false)
               (Sent err) (cy_ops cy ++ [OpSend err]))
| ps_close (err : error) :
    cy_pc cy = Sent err ->
    producer_step cy
      (mkCycle (cy_ln cy)
               (mkChan (ch_cap (cy_ch cy)) (ch_buf (cy_ch cy)) true)
               (Exited err) (cy_ops cy ++ [OpClose])).

(** What a completed receive does to a cycle, and the value received. *)
Inductive consumer_step (cy : Cycle) : error -> Cycle -> Prop :=
| cs_value (v : error) (rest : list error) :
    ch_buf (cy_ch cy) = v :: rest ->
    consumer_step cy v
      (mkCycle (cy_ln cy)
               (mkChan (ch_cap (cy_ch cy)) rest (ch_closed (cy_ch cy)))
               (cy_pc cy) (cy_ops cy ++ [OpRecv v]))
| cs_closed :
    ch_buf (cy_ch cy) = [] ->
    ch_closed (cy_ch cy) = true ->
    consumer_step cy None
      (mkCycle (cy_ln cy) (cy_ch cy) (cy_pc cy) (cy_ops cy ++ [OpRecv None])).

Definition consumer_ops (cy : Cycle) : list ChanOp :=
  List.filter (fun o => match o with OpRecv _ => true | _ => false end) (cy_ops cy).

(** The goroutine has performed its send. *)
Definition has_sent (cy : Cycle) : Prop :=
  match cy_pc cy with
  | Sent _ | Exited _ => True
  | Serving | Returned _ => False
  end.

(** The states a cycle made by [Start] can be in. *)
Definition cycle_inv (cy : Cycle) : Prop :=
  ch_cap (cy_ch cy) = 1 /\
  match cy_pc cy with
  | Serving | Returned _ =>
      ch_buf (cy_ch cy) = [] /\ ch_closed (cy_ch cy) = false /\ cy_ops cy = []
  | Sent err =>
      ch_closed (cy_ch cy) = false /\ producer_ops cy = [OpSend err]
      /\ ch_buf (cy_ch cy) = match consumer_ops cy with [] => [err] | _ :: _ => [] end
  | Exited err =>
      ch_closed (cy_ch cy) = true /\ producer_ops cy = [OpSend err; OpClose]
      /\ ch_buf (cy_ch cy) = match consumer_ops cy with [] => [err] | _ :: _ => [] end
  end.

(** Cycle [c] of the world exists and satisfies [P]. *)
Definition cycle_at (P : Cycle -> Prop) (c : nat) (w : World) : Prop :=
  exists cy, cycles w !! c = Some cy /\ P cy.

(** The contract of [Shutdown] as the specification words it, at one
    call: an error of graceful shutdown is returned at once, the channel
    untouched; otherwise the value taken from the completion signal decides:
    the sentinel is success and clears the listener, any other value is
    surfaced as a failure and leaves the handle as it was. *)
Definition Shutdown_as_specified (ctx : Context) (during : list Move) (h : Handle) (w : World)
  : Prop :=
  let '(o, h', w') := Shutdown ctx during h w in
  match srv_Shutdown (srv h) (io_log w) ctx with
  | Some err => o = Returns (Some err) /\ h' = h /\ cycles w' = cycles w
  | None =>
      match recv (errCh h) (run_moves during (log_io [EvSrvShutdown None] w)) with
      | Got v _ =>
          if is_ErrServerClosed v
          then o = Returns None /\ ln h' = None
          else (exists e, o = Returns (Some e)) /\ h' = h
      | _ => o = BlocksForever /\ h' = h
      end
  end.

(** Properties of a cycle that no step of its goroutine, or no receive,
    breaks. *)
Definition producer_stable (P : Cycle -> Prop) : Prop :=
  forall cy cy', P cy -> producer_step cy cy' -> P cy'.

Definition consumer_stable (P : Cycle -> Prop) : Prop :=
  forall cy v cy', P cy -> consumer_step cy v cy' -> P cy'.

(** The cycle is in order and its goroutine has sent. *)
Definition signalled (cy : Cycle) : Prop := cycle_inv cy /\ has_sent cy.

(** The cycle is in order and nothing has been received from its channel. *)
Definition unread (cy : Cycle) : Prop := cycle_inv cy /\ consumer_ops cy = [].

(** The value [v] is the one [Serve] returned in the cycle. *)
Definition served (v : error) (cy : Cycle) : Prop :=
  cy_pc cy = Sent v \/ cy_pc cy = Exited v.

Definition is_Step (m : Move) : Prop :=
  match m with Step _ => True | ServeReturns _ _ => False end.

(** The cycle is in order, [Serve] returned [v], the goroutine has sent it
    and the other end has received from the channel. *)
Definition drained (v : error) (cy : Cycle) : Prop :=
  cycle_inv cy /\ served v cy /\ consumer_ops cy <> [].

(** The listener field of the handle is what the state machine says. *)
Definition tracks (s : Lifecycle) (h : Handle) : Prop :=
  ln h = match s with Idle => None | Running l => Some l end.


(** ** Further vocabulary *)

(** The cycle a background move is about. *)
Definition move_target (m : Move) : nat :=
  match m with ServeReturns c _ | Step c => c end.

Definition is_ListenFunc (opt : HandleOption) : bool :=
  match opt with ListenFunc _ => true | NewDialerFunc _ => false end.

Definition is_NewDialerFunc (opt : HandleOption) : bool :=
  match opt with NewDialerFunc _ => true | ListenFunc _ => false end.

(** What the prober of [Start] answers and logs for listener [l], given
    the I/O log at the call of [Start]. *)
Definition Start_waits (ctx : Context) (h : Handle) (l : Listener) (w : World)
  : error * list Event :=
  waitUntilAvailable ctx (newDialerFunc h ()) (ln_Addr l)
    (io_log w ++ [EvListen "tcp" (listen_addr (srv h))]).

(** The handle is past a [Shutdown] that took a value other than the
    sentinel from the channel: the listener is still set and the channel of
    its cycle is drained. *)
Definition wedged (l : Listener) (c : nat) (v : error) (h : Handle) (w : World) : Prop :=
  ln h = Some l /\ errCh h = Some c /\ cycle_at (drained v) c w.

Module Scenario.
(** A server that is already listening elsewhere: the listen fails. *)
Definition in_use : GoError := ErrorsNew "listen tcp :8000: bind: address already in use".
Definition listen_fails : Hist -> string -> string -> Listener + GoError :=
  fun _ _ _ => inr in_use.
Definition h_in_use : Handle :=
  NewHandle Fixture.listen_tcp (Fixture.dial_to Fixture.conn_ok) (mkServer ":8000" (fun _ _ => None))
    [ListenFunc listen_fails].

(** A prober whose read times out. *)
Definition h_silent : Handle :=
  NewHandle Fixture.listen_tcp
    (Fixture.dial_to (Fixture.conn_with None (Some Fixture.timed_out))) Fixture.server [].

(** A connection that refuses the deadline. *)
Definition conn_no_deadline : Conn :=
  mkConn 9 (fun _ => Some Fixture.timed_out) (fun _ _ => None) (fun _ _ => None).

(** A second [Start] after the completed cycle of [Fixture]. *)
Definition restarted : Outcome * Handle * World :=
  Start Fixture.background [] Fixture.h2 Fixture.w2.
Definition h3 : Handle := snd (fst restarted).
Definition w3 : World := snd restarted.
End Scenario.
(** * Properties *)

(** ** The readiness prober *)

Lemma wrapNetErr_Some (e : GoError) (msg : string) (args : list FmtArg) :
  wrapNetErr (Some e) msg args =
  Some (if is_net_timeout e then DeadlineExceeded
        else Errorf "%s: %v"
               [match args with [] => AStr msg | _ :: _ => ASprintf msg args end;
                AErr (Some e)]).
Proof. unfold wrapNetErr. destruct (is_net_timeout e); reflexivity. Qed.

Lemma wrapNetErr_nil_iff (err : error) (msg : string) (args : list FmtArg) :
  wrapNetErr err msg args = None <-> err = None.
Proof.
  destruct err as [e|]; [rewrite wrapNetErr_Some|]; simpl; split; congruence.
Qed.

(** Case analysis of a probe on the answers of the environment. *)
Ltac probe_cases ctx d addr hist :=
  unfold waitUntilAvailable, probe_conn, exchange;
  destruct (DialContext d hist ctx "tcp" addr) as [conn|derr];
  [ destruct (ctx_Deadline ctx) as [deadline|];
    [ destruct (conn_SetDeadline conn deadline) as [serr|] | ];
    try (destruct (conn_Write conn _ _invalidHTTPRequestLine) as [werr|];
         [ | destruct (conn_Read conn _ 1) as [rerr|] ])
  | ];
  cbn [fst snd app].

Ltac in_list :=
  repeat match goal with
         | H : In _ (_ :: _) |- _ => destruct H as [H|H]; [try discriminate H|]
         | H : In _ [] |- _ => destruct H
         | H : _ /\ _ |- _ => destruct H
         | H : exists _, _ |- _ => destruct H
         end.

(** C4. Whichever of the dial, the write or the read produced an error:
    when that error is a network timeout the prober answers
    [context.DeadlineExceeded]; otherwise it answers the step's descriptive
    message wrapped around the error. *)
Theorem prober_normalizes_timeouts
    (ctx : Context) (d : dialer) (addr : string) (hist : Hist)
    (st : ProbeStep) (err : GoError) :
  step_failed (snd (waitUntilAvailable ctx d addr hist)) addr st err ->
  fst (waitUntilAvailable ctx d addr hist) =
  Some (if is_net_timeout err then DeadlineExceeded
        else Errorf "%s: %v" [step_message st addr; AErr (Some err)]).
Proof.
  probe_cases ctx d addr hist; destruct st; cbn [step_failed step_message];
    intros H; in_list;
    repeat match goal with
           | H : _ = _ |- _ => injection H as H; subst
           end;
    try rewrite wrapNetErr_Some; try reflexivity.
Qed.

Lemma prober_normalizes_timeouts_witness :
  fst (waitUntilAvailable Fixture.with_deadline
         (Fixture.dial_to (Fixture.conn_with None (Some Fixture.timed_out)))
         "127.0.0.1:40123" []) = Some DeadlineExceeded
  /\ fst (waitUntilAvailable Fixture.background
            (Fixture.dial_to (Fixture.conn_with (Some Fixture.refused) None))
            "127.0.0.1:40123" []) =
     Some (Errorf "%s: %v" [AStr "failed to write request to server";
                           AErr (Some Fixture.refused)]).
Proof.
  split.
  - apply (prober_normalizes_timeouts Fixture.with_deadline _ _ [] StepRead Fixture.timed_out).
    exists 7. vm_compute. tauto.
  - apply (prober_normalizes_timeouts Fixture.background _ _ [] StepWrite Fixture.refused).
    exists 7. vm_compute. tauto.
Defined.


Lemma closed_last_intro (e : Event) (evs : list Event) (id : nat) :
  e <> EvConnClose id -> ~ In (EvConnClose id) evs ->
  closed_last (e :: evs ++ [EvConnClose id]) id.
Proof.
  intros He Hevs. exists (e :: evs). split; [reflexivity|].
  intros [H|H]; [exact (He H)|exact (Hevs H)].
Qed.


(** C10. The prober sets a deadline on the socket exactly when the
    context carries one, and it is the context's. With a context that has
    no deadline the write and the read run with no deadline in force, and
    nothing else of the context reaches them: two such contexts, cancelable
    or cancelled as they may be, give the same probe as soon as the dial
    answers the same. *)
Theorem prober_deadline_from_context
    (ctx : Context) (d : dialer) (addr : string) (hist : Hist) :
  let evs := snd (waitUntilAvailable ctx d addr hist) in
  (forall id t r, In (EvSetDeadline id t r) evs -> ctx_Deadline ctx = Some t)
  /\ (forall conn t, DialContext d hist ctx "tcp" addr = inl conn ->
        ctx_Deadline ctx = Some t ->
        In (EvSetDeadline (conn_id conn) t (conn_SetDeadline conn t)) evs)
  /\ (forall conn, DialContext d hist ctx "tcp" addr = inl conn ->
        ctx_Deadline ctx = None ->
        waitUntilAvailable ctx d addr hist =
        (fst (exchange conn None),
         EvDial "tcp" addr (inl (conn_id conn))
           :: snd (exchange conn None) ++ [EvConnClose (conn_id conn)]))
  /\ (forall ctx' d' hist',
        ctx_Deadline ctx = None -> ctx_Deadline ctx' = None ->
        DialContext d' hist' ctx' "tcp" addr = DialContext d hist ctx "tcp" addr ->
        waitUntilAvailable ctx' d' addr hist' = waitUntilAvailable ctx d addr hist).
Proof.
  cbv zeta. repeat split.
  - probe_cases ctx d addr hist; intros id t r H; in_list;
      match goal with H : _ = EvSetDeadline _ _ _ |- _ => injection H as <- <- <- end;
      reflexivity.
  - intros conn t Hd Ht. unfold waitUntilAvailable, probe_conn. rewrite Hd, Ht.
    destruct (conn_SetDeadline conn t) as [serr|].
    + cbn. auto.
    + destruct (exchange conn (Some t)) as [r evs]. cbn. auto.
  - intros conn Hd Ht. unfold waitUntilAvailable, probe_conn. rewrite Hd, Ht.
    destruct (exchange conn None) as [r evs]. reflexivity.
  - intros ctx' d' hist' Ht Ht' Hd. unfold waitUntilAvailable, probe_conn.
    rewrite Hd, Ht, Ht'. reflexivity.
Qed.

Lemma prober_deadline_from_context_witness :
  waitUntilAvailable Fixture.cancelled (Fixture.dial_to Fixture.conn_ok) "127.0.0.1:40123" []
  = waitUntilAvailable Fixture.background (Fixture.dial_to Fixture.conn_ok)
      "127.0.0.1:40123" []
  /\ In (EvSetDeadline 7 5000%Z None)
        (snd (waitUntilAvailable Fixture.with_deadline (Fixture.dial_to Fixture.conn_ok)
                "127.0.0.1:40123" [])).
Proof.
  split.
  - apply (prober_deadline_from_context Fixture.background
             (Fixture.dial_to Fixture.conn_ok) "127.0.0.1:40123" []);
      reflexivity.
  - apply (proj1 (proj2 (prober_deadline_from_context Fixture.with_deadline
             (Fixture.dial_to Fixture.conn_ok) "127.0.0.1:40123" [])) Fixture.conn_ok);
      reflexivity.
Defined.

(** ** The keep-alive listener *)

(** C7. [Accept] hands out the connection the embedded listener accepted,
    with keep-alive switched on and a period of three minutes, and passes an
    accept error on as it is; [DefaultListenFunc] wraps what [net.Listen]
    returns when, and only when, that is a TCP listener, and returns any
    other listener, and the error, untouched. *)
Theorem keep_alive_listener
    (AcceptTCP : Socket -> TCPConn + GoError) (s : Socket)
    (net_Listen : Hist -> string -> string -> Listener + GoError)
    (hist : Hist) (network address : string) :
  match AcceptTCP s with
  | inl tc => Accept AcceptTCP s = inl (mkTCPConn (tc_id tc) true 180000000000%Z)
  | inr err => Accept AcceptTCP s = inr err
  end
  /\ (3 * Minute = 180 * Second)%Z
  /\ match net_Listen hist network address with
     | inl (TCPListener t) =>
         DefaultListenFunc net_Listen hist network address = inl (tcpKeepAliveListener t)
     | inl (OtherListener o) =>
         DefaultListenFunc net_Listen hist network address = inl (OtherListener o)
     | r => DefaultListenFunc net_Listen hist network address = r
     end.
Proof.
  repeat split.
  - unfold Accept. destruct (AcceptTCP s) as [tc|err]; reflexivity.
  - unfold DefaultListenFunc.
    destruct (net_Listen hist network address) as [[t|o|k]|err]; reflexivity.
Qed.


(** ** Channels and the serving goroutine *)

Lemma lookup_set_cycle_eq (c : nat) (cy0 cy : Cycle) (w : World) :
  cycles w !! c = Some cy0 -> cycles (set_cycle c cy w) !! c = Some cy.
Proof.
  intros H. unfold set_cycle. cbn [cycles].
  apply list_lookup_insert_eq. eapply lookup_lt_Some. exact H.
Qed.

Lemma lookup_set_cycle_ne (c c' : nat) (cy : Cycle) (w : World) :
  c <> c' -> cycles (set_cycle c cy w) !! c' = cycles w !! c'.
Proof. intros H. unfold set_cycle. cbn [cycles]. apply list_lookup_insert_ne. exact H. Qed.

Lemma task_step_inv (c : nat) (w w' : World) :
  task_step c w = Some w' ->
  exists cy cy', cycles w !! c = Some cy /\ producer_step cy cy' /\ w' = set_cycle c cy' w.
Proof.
  unfold task_step. destruct (cycles w !! c) as [cy|] eqn:Hc; [|discriminate].
  destruct (cy_pc cy) as [|err|err|err] eqn:Hpc; try discriminate.
  - destruct (ch_closed (cy_ch cy)) eqn:Hcl; [discriminate|].
    destruct (Nat.ltb (length (ch_buf (cy_ch cy))) (ch_cap (cy_ch cy))) eqn:Hlt; [|discriminate].
    intros [= <-]. exists cy. eexists. split; [reflexivity|]. split; [|reflexivity].
    apply ps_send; auto. apply Nat.ltb_lt. exact Hlt.
  - intros [= <-]. exists cy. eexists. split; [reflexivity|]. split; [|reflexivity].
    apply ps_close; auto.
Qed.

Lemma run_move_inv (m : Move) (w : World) :
  run_move w m = w
  \/ exists c cy cy', cycles w !! c = Some cy /\ producer_step cy cy'
                      /\ run_move w m = set_cycle c cy' w.
Proof.
  destruct m as [c err|c]; cbn [run_move].
  - destruct (cycles w !! c) as [cy|] eqn:Hc; [|left; reflexivity].
    destruct (cy_pc cy) eqn:Hpc; try (left; reflexivity).
    right. exists c, cy. eexists. split; [exact Hc|]. split; [|reflexivity].
    apply ps_returns. exact Hpc.
  - destruct (task_step c w) as [w'|] eqn:Hs; [|left; reflexivity].
    right. destruct (task_step_inv _ _ _ Hs) as (cy & cy' & Hc & Hst & ->).
    exists c, cy, cy'. auto.
Qed.

Lemma try_recv_inv (c : nat) (w w' : World) (v : error) :
  try_recv c w = Some (v, w') ->
  exists cy cy', cycles w !! c = Some cy /\ consumer_step cy v cy' /\ w' = set_cycle c cy' w.
Proof.
  unfold try_recv. destruct (cycles w !! c) as [cy|] eqn:Hc; [|discriminate].
  destruct (ch_buf (cy_ch cy)) as [|v0 rest] eqn:Hb.
  - destruct (ch_closed (cy_ch cy)) eqn:Hcl; [|discriminate].
    intros [= <- <-]. exists cy. eexists. split; [reflexivity|]. split; [|reflexivity].
    apply cs_closed; auto.
  - intros [= <- <-]. exists cy. eexists. split; [reflexivity|]. split; [|reflexivity].
    apply cs_value; auto.
Qed.

Lemma try_recv_None (c : nat) (w : World) (cy : Cycle) :
  cycles w !! c = Some cy ->
  (try_recv c w = None <-> ch_buf (cy_ch cy) = [] /\ ch_closed (cy_ch cy) = false).
Proof.
  intros Hc. unfold try_recv. rewrite Hc.
  destruct (ch_buf (cy_ch cy)); [destruct (ch_closed (cy_ch cy))|];
    split; try discriminate; try tauto; intros [? ?]; discriminate.
Qed.

Lemma cycle_at_set (P : Cycle -> Prop) (c c' : nat) (cy cy' : Cycle) (w : World) :
  cycles w !! c' = Some cy -> (c = c' -> P cy -> P cy') ->
  cycle_at P c w -> cycle_at P c (set_cycle c' cy' w).
Proof.
  intros Hc' Himp (cy0 & Hc & HP). destruct (Nat.eq_dec c' c) as [->|Hne].
  - exists cy'. split; [eapply lookup_set_cycle_eq; eauto|].
    apply Himp; [reflexivity|congruence].
  - exists cy0. rewrite lookup_set_cycle_ne; auto.
Qed.

Lemma cycle_at_run_move (P : Cycle -> Prop) (c : nat) (m : Move) (w : World) :
  producer_stable P -> cycle_at P c w -> cycle_at P c (run_move w m).
Proof.
  intros HP H. destruct (run_move_inv m w) as [->|(c' & cy & cy' & Hc & Hst & ->)]; [exact H|].
  eapply cycle_at_set; eauto.
Qed.

Lemma cycle_at_run_moves (P : Cycle -> Prop) (c : nat) (ms : list Move) (w : World) :
  producer_stable P -> cycle_at P c w -> cycle_at P c (run_moves ms w).
Proof.
  intros HP. unfold run_moves. revert w.
  induction ms as [|m ms IH]; intros w H; cbn [fold_left]; [exact H|].
  apply IH. apply cycle_at_run_move; auto.
Qed.

Lemma cycle_at_log_io (P : Cycle -> Prop) (c : nat) (evs : list Event) (w : World) :
  cycle_at P c (log_io evs w) <-> cycle_at P c w.
Proof. reflexivity. Qed.

Lemma filter_snoc {A : Type} (f : A -> bool) (l : list A) (x : A) :
  List.filter f (l ++ [x]) = List.filter f l ++ (if f x then [x] else []).
Proof. rewrite List.filter_app. reflexivity. Qed.

Lemma producer_ops_snoc (cy cy' : Cycle) (o : ChanOp) :
  cy_ops cy' = cy_ops cy ++ [o] ->
  producer_ops cy' = producer_ops cy ++ match o with OpRecv _ => [] | _ => [o] end.
Proof.
  intros H. unfold producer_ops. rewrite H, filter_snoc. destruct o; reflexivity.
Qed.

Lemma consumer_ops_snoc (cy cy' : Cycle) (o : ChanOp) :
  cy_ops cy' = cy_ops cy ++ [o] ->
  consumer_ops cy' = consumer_ops cy ++ match o with OpRecv _ => [o] | _ => [] end.
Proof.
  intros H. unfold consumer_ops. rewrite H, filter_snoc. destruct o; reflexivity.
Qed.

Lemma producer_step_consumer_ops (cy cy' : Cycle) :
  producer_step cy cy' -> consumer_ops cy' = consumer_ops cy.
Proof.
  intros [err Hpc|err Hpc Hcl Hlt|err Hpc]; [reflexivity| |];
    erewrite consumer_ops_snoc by reflexivity; apply app_nil_r.
Qed.

Lemma consumer_step_producer_ops (cy cy' : Cycle) (v : error) :
  consumer_step cy v cy' -> producer_ops cy' = producer_ops cy /\ cy_pc cy' = cy_pc cy.
Proof.
  intros [v0 rest Hb|Hb Hcl]; (split; [|reflexivity]);
    erewrite producer_ops_snoc by reflexivity; apply app_nil_r.
Qed.

Lemma consumer_step_consumer_ops (cy cy' : Cycle) (v : error) :
  consumer_step cy v cy' -> consumer_ops cy' = consumer_ops cy ++ [OpRecv v].
Proof.
  intros [v0 rest Hb|Hb Hcl]; erewrite consumer_ops_snoc by reflexivity; reflexivity.
Qed.

Lemma cycle_inv_producer_stable : producer_stable cycle_inv.
Proof.
  intros cy cy' Hinv Hst.
  pose proof (producer_step_consumer_ops _ _ Hst) as Hcons.
  unfold cycle_inv in *. rewrite Hcons.
  destruct Hst as [err Hpc|err Hpc Hcl Hlt|err Hpc]; rewrite Hpc in Hinv; cbn [cy_pc cy_ch ch_cap ch_buf ch_closed].
  - exact Hinv.
  - destruct Hinv as (Hcap & Hb & _ & Hops). split; [exact Hcap|]. split; [reflexivity|].
    unfold producer_ops, consumer_ops. cbn [cy_ops]. rewrite Hops, Hb. cbn. auto.
  - destruct Hinv as (Hcap & _ & Hp & Hb). split; [exact Hcap|]. split; [reflexivity|].
    split; [|exact Hb].
    erewrite producer_ops_snoc by reflexivity. rewrite Hp. reflexivity.
Qed.

Lemma cycle_inv_consumer_stable : consumer_stable cycle_inv.
Proof.
  intros cy v cy' Hinv Hst.
  destruct (consumer_step_producer_ops _ _ _ Hst) as [Hprod Hpc].
  pose proof (consumer_step_consumer_ops _ _ _ Hst) as Hcons.
  unfold cycle_inv in *. rewrite Hpc, Hprod, Hcons.
  assert (Hne : forall (e : error),
             match consumer_ops cy ++ [OpRecv v] with [] => [e] | _ :: _ => [] end = []).
  { intros e. destruct (consumer_ops cy); reflexivity. }
  destruct Hinv as (Hcap & Hinv).
  destruct Hst as [v rest Hb|Hb Hcl]; cbn [cy_pc cy_ch ch_cap ch_buf ch_closed];
    (split; [exact Hcap|]);
    destruct (cy_pc cy) as [|err|err|err];
    try (destruct Hinv as (? & ? & ?); congruence);
    destruct Hinv as (Hc & Hp & Hbuf); rewrite Hne; repeat split; auto;
    rewrite Hb in Hbuf; destruct (consumer_ops cy); congruence.
Qed.

Lemma unread_producer_stable : producer_stable unread.
Proof.
  intros cy cy' [Hinv Hu] Hst. split; [eapply cycle_inv_producer_stable; eauto|].
  rewrite (producer_step_consumer_ops _ _ Hst). exact Hu.
Qed.

(** The first value received is the one [Serve] returned. *)
Lemma consumer_step_unread (cy cy' : Cycle) (v : error) :
  unread cy -> consumer_step cy v cy' -> served v cy.
Proof.
  intros [(Hcap & Hinv) Hu] Hst. unfold served.
  destruct (cy_pc cy) as [|err|err|err];
    try (destruct Hinv as (Hb & Hc & _); destruct Hst as [v rest Hb'|Hb' Hcl']; congruence);
    destruct Hinv as (Hc & Hp & Hb); rewrite Hu in Hb;
    destruct Hst as [v rest Hb'|Hb' Hcl']; try congruence;
    rewrite Hb in Hb'; injection Hb' as -> _; auto.
Qed.

Lemma go_Serve_unread (l : Listener) (w : World) :
  fst (go_Serve l w) = length (cycles w)
  /\ cycle_at unread (length (cycles w)) (snd (go_Serve l w))
  /\ io_log (snd (go_Serve l w)) = io_log w.
Proof.
  split; [reflexivity|]. split; [|reflexivity].
  eexists. split.
  - unfold go_Serve. cbn [snd cycles]. apply list_lookup_middle. reflexivity.
  - repeat split.
Qed.

Lemma cycle_at_impl (P Q : Cycle -> Prop) (c : nat) (w : World) :
  (forall cy, P cy -> Q cy) -> cycle_at P c w -> cycle_at Q c w.
Proof. intros H (cy & Hc & HP). exists cy. auto. Qed.

Lemma task_step_ready (c : nat) (w w' : World) :
  task_step c w = Some w' -> try_recv c w' <> None.
Proof.
  intros Hs. destruct (task_step_inv _ _ _ Hs) as (cy & cy' & Hc & Hst & ->).
  unfold task_step in Hs. rewrite Hc in Hs.
  unfold try_recv. erewrite lookup_set_cycle_eq by exact Hc.
  destruct Hst as [err Hpc|err Hpc Hcl Hlt|err Hpc]; rewrite Hpc in Hs; cbn.
  - discriminate Hs.
  - destruct (ch_buf (cy_ch cy)); discriminate.
  - destruct (ch_buf (cy_ch cy)); discriminate.
Qed.

(** One unit of fuel is enough for a waiting receive: after one statement
    of the goroutine there is something to receive. *)
Lemma recv_wait_fuel (fuel : nat) (c : nat) (w : World) :
  recv_wait (S fuel) c w <> OutOfFuel.
Proof.
  cbn [recv_wait]. destruct (try_recv c w) as [[v w']|]; [discriminate|].
  destruct (task_step c w) as [w1|] eqn:Hs; [|discriminate].
  pose proof (task_step_ready _ _ _ Hs) as Hr.
  destruct fuel; cbn [recv_wait]; destruct (try_recv c w1) as [[v w']|];
    try discriminate; congruence.
Qed.

Lemma recv_no_OutOfFuel (ch : ChanRef) (w : World) : recv ch w <> OutOfFuel.
Proof. destruct ch as [c|]; [apply recv_wait_fuel|discriminate]. Qed.

(** Once the goroutine has sent, a waiting receive completes. *)
Lemma recv_wait_signalled (fuel : nat) (c : nat) (w : World) :
  cycle_at signalled c w ->
  exists v w', recv_wait (S fuel) c w = Got v w'.
Proof.
  intros (cy & Hc & (Hcap & Hinv) & Hs). cbn [recv_wait].
  destruct (try_recv c w) as [[v w']|] eqn:Hr; [eauto|].
  apply (try_recv_None _ _ _ Hc) in Hr. destruct Hr as [Hb Hcl].
  unfold has_sent in Hs. unfold task_step. rewrite Hc.
  destruct (cy_pc cy) as [|err|err|err]; try destruct Hs.
  - match goal with |- context [recv_wait fuel c ?w1] => set (w1' := w1) end.
    assert (Hr1 : exists w2, try_recv c w1' = Some (None, w2)).
    { unfold try_recv, w1'. erewrite lookup_set_cycle_eq by exact Hc. cbn. rewrite Hb.
      eauto. }
    destruct Hr1 as [w2 Hr1]. exists None, w2.
    destruct fuel; cbn [recv_wait]; rewrite Hr1; reflexivity.
  - destruct Hinv as (Hcl' & _). congruence.
Qed.

(** When a waiting receive is stuck, no statement of any goroutine makes a
    value available: only the environment could, by making [Serve] return. *)
Lemma Never_is_final (c : nat) (w : World) (ms : list Move) :
  recv (Some c) w = Never -> Forall is_Step ms ->
  try_recv c (run_moves ms w) = None.
Proof.
  intros Hn Hms. cbn [recv recv_wait] in Hn.
  destruct (try_recv c w) as [[v w']|] eqn:Hr; [discriminate|].
  assert (Hs : task_step c w = None).
  { destruct (task_step c w) as [w1|] eqn:Hs; [|reflexivity].
    pose proof (task_step_ready _ _ _ Hs) as Hready.
    destruct (try_recv c w1) as [[v w']|]; [discriminate|congruence]. }
  clear Hn. unfold run_moves. revert w Hr Hs.
  induction Hms as [|m ms Hm Hms IH]; intros w Hr Hs; cbn [fold_left]; [exact Hr|].
  destruct m as [c' err|c']; [destruct Hm|]. cbn [run_move].
  destruct (task_step c' w) as [w1|] eqn:Hs'; [|apply IH; assumption].
  destruct (task_step_inv _ _ _ Hs') as (cy & cy' & Hc & Hst & ->).
  assert (Hne : c' <> c) by (intros ->; congruence).
  apply IH.
  - clear IH. unfold try_recv in *. rewrite lookup_set_cycle_ne by exact Hne.
    destruct (cycles w !! c) as [cy0|]; [|reflexivity].
    destruct (ch_buf (cy_ch cy0)); [|discriminate].
    destruct (ch_closed (cy_ch cy0)); [discriminate|reflexivity].
  - clear IH Hs'. unfold task_step in *. rewrite lookup_set_cycle_ne by exact Hne.
    destruct (cycles w !! c) as [cy0|]; [|reflexivity].
    destruct (cy_pc cy0); try reflexivity; try discriminate.
    destruct (ch_closed (cy_ch cy0)); [reflexivity|].
    destruct (Nat.ltb _ _); [discriminate|reflexivity].
Qed.

(** ** The handle *)

Lemma apply_options_fields (opts : list HandleOption) (h : Handle) :
  srv (fold_left apply_option opts h) = srv h
  /\ ln (fold_left apply_option opts h) = ln h
  /\ errCh (fold_left apply_option opts h) = errCh h.
Proof.
  revert h. induction opts as [|opt opts IH]; intros h; cbn [fold_left]; [auto|].
  destruct (IH (apply_option h opt)) as (-> & -> & ->). destruct opt; auto.
Qed.

Lemma NewHandle_fresh (net_Listen : Hist -> string -> string -> Listener + GoError)
    (net_Dialer : dialer) (s : Server) (opts : list HandleOption) :
  srv (NewHandle net_Listen net_Dialer s opts) = s
  /\ ln (NewHandle net_Listen net_Dialer s opts) = None
  /\ errCh (NewHandle net_Listen net_Dialer s opts) = None.
Proof. unfold NewHandle. apply apply_options_fields. Qed.

(** The cycle a probe of [Start] runs against is the fresh one, nothing
    has been received from it yet, and only the prober has added to the I/O
    log. *)
Lemma Start_probe_unread (ctx : Context) (during : list Move) (h : Handle) (l : Listener)
    (w w_sel : World) (c : nat) (perr : error) :
  Start_probe ctx during h l w = (c, perr, w_sel) ->
  c = length (cycles w) /\ cycle_at unread c w_sel
  /\ perr = fst (waitUntilAvailable ctx (newDialerFunc h ()) (ln_Addr l) (io_log w)).
Proof.
  unfold Start_probe.
  destruct (go_Serve_unread l w) as (Hc & Hu & Hlog).
  destruct (go_Serve l w) as [c0 w0]. cbn [fst snd] in *. subst c0. rewrite Hlog.
  destruct (waitUntilAvailable ctx (newDialerFunc h ()) (ln_Addr l) (io_log w)) as [r evs].
  intros [= <- <- <-]. repeat split.
  apply cycle_at_run_moves; [exact unread_producer_stable|].
  apply cycle_at_log_io. exact Hu.
Qed.

(** C6. [Start] on a handle whose listener is set answers the "server is
    already running" error and does nothing else: the handle and the world
    (I/O log, goroutines, channels) are as before, so no listener was asked
    for and no goroutine launched. *)
Theorem Start_rejected_when_running
    (ctx : Context) (during : list Move) (h : Handle) (w : World) (l : Listener) :
  ln h = Some l ->
  Start ctx during h w = (Returns (Some (ErrorsNew "server is already running")), h, w).
Proof. intros H. unfold Start. rewrite H. reflexivity. Qed.

Lemma Start_rejected_when_running_witness :
  ln Fixture.h1 = Some (tcpKeepAliveListener Fixture.sock)
  /\ Start Fixture.background [] Fixture.h1 Fixture.w1
     = (Returns (Some (ErrorsNew "server is already running")), Fixture.h1, Fixture.w1).
Proof.
  split; [reflexivity|].
  apply (Start_rejected_when_running Fixture.background [] Fixture.h1 Fixture.w1
           (tcpKeepAliveListener Fixture.sock)).
  reflexivity.
Defined.

(** C3. [Start] with a listener in hand and a prober that failed. When
    the [select] finds a value on the channel, [Start] answers an error
    built from that value, which is the one [Serve] returned, and does not
    close the listener; when it finds none, [Start] closes the listener and
    answers the prober's failure. The handle is left as it was in both
    cases. *)
Theorem Start_on_probe_failure
    (ctx : Context) (during : list Move) (h : Handle) (w : World)
    (l : Listener) (c : nat) (perr : GoError) (w_sel : World) :
  ln h = None ->
  listenFunc h (io_log w) "tcp" (listen_addr (srv h)) = inl l ->
  Start_probe ctx during h l (log_io [EvListen "tcp" (listen_addr (srv h))] w)
    = (c, Some perr, w_sel) ->
  (forall v w', try_recv c w_sel = Some (v, w') ->
     Start ctx during h w
       = (Returns (Some (Errorf "error starting HTTP server: %v" [AErr v])), h, w')
     /\ cycle_at (served v) c w_sel
     /\ io_log w' = io_log w_sel)
  /\ (try_recv c w_sel = None ->
      Start ctx during h w
        = (Returns (wrapNetErr (Some perr) "error waiting for server to start up" []),
           h, log_io [EvListenerClose l] w_sel)
      /\ wrapNetErr (Some perr) "error waiting for server to start up" [] <> None).
Proof.
  intros Hln Hl Hp. split.
  - intros v w' Hr. split; [|split].
    + unfold Start. rewrite Hln, Hl, Hp, Hr. reflexivity.
    + destruct (Start_probe_unread _ _ _ _ _ _ _ _ Hp) as (_ & (cy & Hc & Hu) & _).
      destruct (try_recv_inv _ _ _ _ Hr) as (cy0 & cy' & Hc0 & Hst & _).
      assert (cy0 = cy) as -> by congruence.
      exists cy. split; [exact Hc|]. eapply consumer_step_unread; eauto.
    + destruct (try_recv_inv _ _ _ _ Hr) as (cy0 & cy' & _ & _ & ->). reflexivity.
  - intros Hr. split.
    + unfold Start. rewrite Hln, Hl, Hp, Hr. reflexivity.
    + rewrite wrapNetErr_Some. discriminate.
Qed.

Lemma Start_on_probe_failure_witness :
  Start Fixture.background
    [ServeReturns 0 (Some (ErrorsNew "accept: too many open files")); Step 0]
    Fixture.h_unreachable empty_world
  = (Returns (Some (Errorf "error starting HTTP server: %v"
                      [AErr (Some (ErrorsNew "accept: too many open files"))])),
     Fixture.h_unreachable,
     snd (Start Fixture.background
            [ServeReturns 0 (Some (ErrorsNew "accept: too many open files")); Step 0]
            Fixture.h_unreachable empty_world)).
Proof.
  eapply (proj1 (Start_on_probe_failure Fixture.background
            [ServeReturns 0 (Some (ErrorsNew "accept: too many open files")); Step 0]
            Fixture.h_unreachable empty_world
            (tcpKeepAliveListener Fixture.sock) 0
            (Errorf "%s: %v" [ASprintf "failed to dial to %q" [AStr "127.0.0.1:40123"];
                             AErr (Some Fixture.refused)])
            _ eq_refl eq_refl eq_refl)).
  vm_compute. reflexivity.
Defined.

(** The ways [Shutdown] can end. *)
Lemma Shutdown_cases (ctx : Context) (during : list Move) (h : Handle) (w : World) :
  match srv_Shutdown (srv h) (io_log w) ctx with
  | Some err =>
      Shutdown ctx during h w = (Returns (Some err), h, log_io [EvSrvShutdown (Some err)] w)
  | None =>
      let w1 := run_moves during (log_io [EvSrvShutdown None] w) in
      match recv (errCh h) w1 with
      | Got v w' =>
          Shutdown ctx during h w =
          if is_ErrServerClosed v
          then (Returns None,
                mkHandle (srv h) None (errCh h) (listenFunc h) (newDialerFunc h), w')
          else (Returns v, h, w')
      | _ => Shutdown ctx during h w = (BlocksForever, h, w1)
      end
  end.
Proof.
  unfold Shutdown. destruct (srv_Shutdown (srv h) (io_log w) ctx) as [err|]; [reflexivity|].
  cbv zeta. destruct (recv (errCh h) _) as [v w'| |]; reflexivity.
Qed.

(** C2, as the code has it. An error of graceful shutdown is returned at
    once and the channel is not touched. Otherwise [Shutdown] waits for the
    completion signal: the sentinel makes it return nil and clear the
    listener; any other value is returned as it is, the handle untouched,
    which is a failure for a non-nil error and a nil result for the nil
    value that a closed, drained channel delivers. The listener is cleared
    on the sentinel path only. *)
Theorem Shutdown_contract (ctx : Context) (during : list Move) (h : Handle) (w : World) :
  let '(o, h', w') := Shutdown ctx during h w in
  match srv_Shutdown (srv h) (io_log w) ctx with
  | Some err => o = Returns (Some err) /\ h' = h /\ cycles w' = cycles w
  | None =>
      match recv (errCh h) (run_moves during (log_io [EvSrvShutdown None] w)) with
      | Got v _ =>
          if is_ErrServerClosed v
          then o = Returns None
               /\ h' = mkHandle (srv h) None (errCh h) (listenFunc h) (newDialerFunc h)
          else o = Returns v /\ h' = h
      | _ => o = BlocksForever /\ h' = h
      end
  end.
Proof.
  pose proof (Shutdown_cases ctx during h w) as H.
  destruct (srv_Shutdown (srv h) (io_log w) ctx) as [err|].
  - rewrite H. auto.
  - cbv zeta in H. destruct (recv (errCh h) _) as [v w'| |]; rewrite H; auto.
    destruct (is_ErrServerClosed v); auto.
Qed.

(** C2, as worded, fails on a second [Shutdown] after a completed cycle:
    the channel is drained and gets closed, the receive yields the nil
    value, which is not the sentinel, and [Shutdown] returns nil, not a
    failure. *)
Lemma Shutdown_nil_value_is_not_a_failure :
  ~ Shutdown_as_specified Fixture.background [] Fixture.h2 Fixture.w2.
Proof.
  unfold Shutdown_as_specified. vm_compute. intros [[e He] _]. discriminate He.
Qed.

(** The same nil value makes a [Shutdown] return nil with the listener
    still set, when an earlier [Shutdown] has taken the error [Serve] failed
    with from the channel. *)
Remark Shutdown_nil_value_keeps_listener :
  fst (fst Fixture.crashed) = Returns (Some Fixture.accept_failed)
  /\ fst (fst (Shutdown Fixture.background [] Fixture.h1' Fixture.w1')) = Returns None
  /\ ln (snd (fst (Shutdown Fixture.background [] Fixture.h1' Fixture.w1')))
     = Some (tcpKeepAliveListener Fixture.sock).
Proof. vm_compute. auto. Qed.

(** C9. A handle fresh from [NewHandle] is idle and its channel is nil.
    [Shutdown] on it returns only when graceful shutdown reports an error;
    when that reports none, [Shutdown] waits on the nil channel, where no
    move of any goroutine helps, and never returns. *)
Theorem Shutdown_before_Start_blocks
    (net_Listen : Hist -> string -> string -> Listener + GoError) (net_Dialer : dialer)
    (s : Server) (opts : list HandleOption)
    (ctx : Context) (during : list Move) (w : World) :
  let h := NewHandle net_Listen net_Dialer s opts in
  ln h = None /\ errCh h = None
  /\ (forall ms, recv (errCh h) (run_moves ms w) = Never)
  /\ (srv_Shutdown s (io_log w) ctx = None ->
      fst (fst (Shutdown ctx during h w)) = BlocksForever)
  /\ (forall r, fst (fst (Shutdown ctx during h w)) = Returns r ->
      r <> None /\ srv_Shutdown s (io_log w) ctx = r).
Proof.
  cbv zeta. destruct (NewHandle_fresh net_Listen net_Dialer s opts) as (Hsrv & Hln & Hch).
  split; [exact Hln|]. split; [exact Hch|]. rewrite Hch. split; [reflexivity|].
  pose proof (Shutdown_cases ctx during (NewHandle net_Listen net_Dialer s opts) w) as H.
  rewrite Hsrv, Hch in H. cbv zeta in H. cbn [recv] in H.
  destruct (srv_Shutdown s (io_log w) ctx) as [err|]; rewrite H; cbn [fst]; split.
  - discriminate.
  - intros r [= <-]. split; [discriminate|reflexivity].
  - reflexivity.
  - intros r Hr. discriminate Hr.
Qed.

Lemma Shutdown_before_Start_blocks_witness :
  fst (fst (Shutdown Fixture.background [] Fixture.h0 empty_world)) = BlocksForever.
Proof.
  apply (Shutdown_before_Start_blocks Fixture.listen_tcp (Fixture.dial_to Fixture.conn_ok)
           Fixture.server [] Fixture.background [] empty_world).
  reflexivity.
Defined.

(** What a successful [Start] leaves behind. *)
Lemma Start_ready_inv (ctx : Context) (during : list Move) (h h' : Handle) (w w' : World) :
  Start ctx during h w = (Returns None, h', w') ->
  exists l c, ln h = None
    /\ listenFunc h (io_log w) "tcp" (listen_addr (srv h)) = inl l
    /\ h' = mkHandle (srv h) (Some l) (Some c) (listenFunc h) (newDialerFunc h)
    /\ cycle_at unread c w'.
Proof.
  unfold Start. destruct (ln h) as [l|] eqn:Hln; [discriminate|].
  destruct (listenFunc h (io_log w) "tcp" (listen_addr (srv h))) as [l|err] eqn:Hl;
    [|discriminate].
  destruct (Start_probe ctx during h l _) as [[c perr] w_sel] eqn:Hp.
  destruct (Start_probe_unread _ _ _ _ _ _ _ _ Hp) as (_ & Hu & _).
  destruct perr as [perr|].
  - destruct (try_recv c w_sel) as [[v w'']|]; [discriminate|].
    rewrite wrapNetErr_Some. discriminate.
  - intros [= <- <-]. eauto 10.
Qed.

(** What a waiting receive that completes establishes, from what held
    of the cycle before. *)
Lemma recv_wait_establishes (P : Cycle -> Prop) (Q : error -> Cycle -> Prop) (c : nat) :
  producer_stable P ->
  (forall cy v cy', P cy -> consumer_step cy v cy' -> Q v cy') ->
  forall fuel w v w',
    cycle_at P c w -> recv_wait fuel c w = Got v w' ->
    cycle_at (Q v) c w' /\ io_log w' = io_log w.
Proof.
  intros HP HQ.
  assert (Hnow : forall w v w', cycle_at P c w -> try_recv c w = Some (v, w') ->
                   cycle_at (Q v) c w' /\ io_log w' = io_log w).
  { intros w v w' (cy & Hc & Hcy) Hr.
    destruct (try_recv_inv _ _ _ _ Hr) as (cy0 & cy' & Hc0 & Hst & ->).
    assert (cy0 = cy) as -> by congruence.
    split; [|reflexivity]. exists cy'. split; [eapply lookup_set_cycle_eq; eauto|].
    eapply HQ; eauto. }
  induction fuel as [|fuel IH]; intros w v w' Hat; cbn [recv_wait];
    destruct (try_recv c w) as [[v0 w0]|] eqn:Hr; try discriminate;
    try (intros [= <- <-]; eapply Hnow; eauto).
  destruct (task_step c w) as [w1|] eqn:Hs; [|discriminate].
  intros Hgot. destruct (task_step_inv _ _ _ Hs) as (cy & cy' & Hc & Hst & ->).
  destruct (IH (set_cycle c cy' w) v w') as [H1 H2]; auto.
  eapply cycle_at_set; eauto.
Qed.

Lemma served_step (v : error) (cy cy' : Cycle) :
  served v cy -> producer_step cy cy' -> served v cy'.
Proof.
  unfold served. intros Hs [err Hpc|err Hpc Hcl Hlt|err Hpc]; cbn [cy_pc];
    destruct Hs as [Hs|Hs]; try congruence.
  right. congruence.
Qed.

Lemma drained_producer_stable (v : error) : producer_stable (drained v).
Proof.
  intros cy cy' (Hinv & Hs & Hne) Hst. split; [eapply cycle_inv_producer_stable; eauto|].
  split; [eapply served_step; eauto|].
  rewrite (producer_step_consumer_ops _ _ Hst). exact Hne.
Qed.

Lemma unread_recv_drained (cy : Cycle) (v : error) (cy' : Cycle) :
  unread cy -> consumer_step cy v cy' -> drained v cy'.
Proof.
  intros Hu Hst. pose proof (consumer_step_unread _ _ _ Hu Hst) as Hs.
  destruct Hu as [Hinv _]. split; [eapply cycle_inv_consumer_stable; eauto|].
  split.
  - unfold served in *. destruct (consumer_step_producer_ops _ _ _ Hst) as [_ ->]. exact Hs.
  - rewrite (consumer_step_consumer_ops _ _ _ Hst). destruct (consumer_ops cy); discriminate.
Qed.

Lemma drained_recv_nil (e : error) (cy : Cycle) (v : error) (cy' : Cycle) :
  drained e cy -> consumer_step cy v cy' ->
  v = None /\ drained e cy' /\ ch_closed (cy_ch cy') = true.
Proof.
  intros (Hinv & Hs & Hne) Hst.
  assert (Hb : ch_buf (cy_ch cy) = []).
  { destruct Hinv as (_ & Hinv). unfold served in Hs.
    destruct (cy_pc cy) as [|err|err|err]; try (destruct Hs; discriminate);
      destruct Hinv as (_ & _ & ->); destruct (consumer_ops cy); congruence. }
  pose proof (cycle_inv_consumer_stable _ _ _ Hinv Hst) as Hinv'.
  pose proof (consumer_step_consumer_ops _ _ _ Hst) as Hcons.
  destruct (consumer_step_producer_ops _ _ _ Hst) as [_ Hpc].
  assert (Hd : drained e cy').
  { split; [exact Hinv'|]. split; [unfold served in *; rewrite Hpc; exact Hs|].
    rewrite Hcons. destruct (consumer_ops cy); discriminate. }
  destruct Hst as [v rest Hb'|Hb' Hcl]; [congruence|]. auto.
Qed.

Lemma drained_signalled (v : error) (cy : Cycle) : drained v cy -> signalled cy.
Proof.
  intros (Hinv & Hs & _). split; [exact Hinv|]. unfold served, has_sent in *.
  destruct Hs as [-> | ->]; exact I.
Qed.

Lemma sends_producer_ops (cy : Cycle) :
  sends cy = omap (fun o => match o with OpSend v => Some v | _ => None end) (producer_ops cy).
Proof.
  unfold sends, producer_ops. induction (cy_ops cy) as [|o ops IH]; [reflexivity|].
  destruct o; cbn; rewrite IH; reflexivity.
Qed.

(** A cycle whose goroutine has sent has seen one send, of the value
    [Serve] returned, and at most the close after it. *)
Lemma served_written_once (v : error) (cy : Cycle) :
  cycle_inv cy -> served v cy ->
  sends cy = [v] /\ (producer_ops cy = [OpSend v] \/ producer_ops cy = [OpSend v; OpClose]).
Proof.
  intros (_ & Hinv) Hs. rewrite sends_producer_ops. unfold served in Hs.
  destruct (cy_pc cy) as [|err|err|err]; destruct Hs as [Hs|Hs]; try discriminate;
    injection Hs as ->; destruct Hinv as (_ & -> & _); auto.
Qed.

(** C8. After a [Start] and a [Shutdown] that both succeeded, the handle
    idle again: the goroutine has written to the channel of that cycle once,
    and closes it, nothing else; and a further [Shutdown] returns, whatever
    the environment and the scheduler do. When it gets to the receive, the
    channel has been closed by then and the value is nil. *)
Theorem second_Shutdown_returns
    (ctx1 ctx2 : Context) (m1 m2 : list Move) (h0 h1 h2 : Handle) (w0 w1 w2 : World) :
  Start ctx1 m1 h0 w0 = (Returns None, h1, w1) ->
  Shutdown ctx2 m2 h1 w1 = (Returns None, h2, w2) ->
  ln h2 = None ->
  (exists c, errCh h2 = Some c
     /\ cycle_at (fun cy => sends cy = [Some ErrServerClosed]
                            /\ (producer_ops cy = [OpSend (Some ErrServerClosed)]
                                \/ producer_ops cy = [OpSend (Some ErrServerClosed); OpClose]))
          c w2)
  /\ forall ctx3 m3,
       exists r h3 w3,
         Shutdown ctx3 m3 h2 w2 = (Returns r, h3, w3)
         /\ h3 = h2
         /\ (srv_Shutdown (srv h2) (io_log w2) ctx3 = None ->
             r = None
             /\ exists c, errCh h2 = Some c
                  /\ cycle_at (fun cy => ch_closed (cy_ch cy) = true
                                 /\ producer_ops cy = [OpSend (Some ErrServerClosed); OpClose])
                       c w3).
Proof.
  intros HStart HShut Hidle.
  destruct (Start_ready_inv _ _ _ _ _ _ HStart) as (l & c & Hln0 & Hl & -> & Hu).
  pose proof (Shutdown_cases ctx2 m2
                (mkHandle (srv h0) (Some l) (Some c) (listenFunc h0) (newDialerFunc h0)) w1)
    as Hc. cbn [srv errCh listenFunc newDialerFunc] in Hc.
  destruct (srv_Shutdown (srv h0) (io_log w1) ctx2) as [err|]; [congruence|].
  cbv zeta in Hc. cbn [recv] in Hc.
  destruct (recv_wait 2 c _) as [v w2'| |] eqn:Hr; try congruence.
  assert (Hv : is_ErrServerClosed v = true).
  { destruct (is_ErrServerClosed v); [reflexivity|].
    rewrite Hc in HShut. injection HShut as _ <- _. discriminate Hidle. }
  rewrite Hv, HShut in Hc. injection Hc as -> ->.
  assert (v = Some ErrServerClosed) as ->.
  { destruct v as [[]|]; try discriminate Hv. reflexivity. }
  destruct (recv_wait_establishes unread drained c unread_producer_stable
              unread_recv_drained _ _ _ _
              (cycle_at_run_moves _ _ m2 _ unread_producer_stable
                 (proj2 (cycle_at_log_io _ _ [EvSrvShutdown None] _) Hu)) Hr)
    as [Hd _].
  cbn [errCh srv]. split.
  - exists c. split; [reflexivity|]. eapply cycle_at_impl; [|exact Hd].
    intros cy (Hinv & Hs & _). apply served_written_once; assumption.
  - intros ctx3 m3.
    pose proof (Shutdown_cases ctx3 m3
                  (mkHandle (srv h0) None (Some c) (listenFunc h0) (newDialerFunc h0)) w2')
      as Hc. cbn [srv errCh listenFunc newDialerFunc] in Hc.
    destruct (srv_Shutdown (srv h0) (io_log w2') ctx3) as [err|].
    { do 3 eexists. split; [exact Hc|]. split; [reflexivity|]. discriminate. }
    cbv zeta in Hc. cbn [recv] in Hc.
    assert (Hd3 : cycle_at (drained (Some ErrServerClosed)) c
                    (run_moves m3 (log_io [EvSrvShutdown None] w2'))).
    { apply cycle_at_run_moves; [apply drained_producer_stable|].
      apply cycle_at_log_io. exact Hd. }
    destruct (recv_wait_signalled 1 c _ (cycle_at_impl _ _ _ _ (drained_signalled _) Hd3))
      as (v3 & w3 & Hr3).
    rewrite Hr3 in Hc.
    destruct (recv_wait_establishes (drained (Some ErrServerClosed))
                (fun v cy => v = None /\ drained (Some ErrServerClosed) cy
                             /\ ch_closed (cy_ch cy) = true)
                c (drained_producer_stable _) (drained_recv_nil _) _ _ _ _ Hd3 Hr3)
      as [Hfin _].
    assert (v3 = None) as -> by (destruct Hfin as (cy & _ & Hnil & _); exact Hnil).
    cbn [is_ErrServerClosed] in Hc.
    do 3 eexists. split; [exact Hc|]. split; [reflexivity|]. intros _.
    split; [reflexivity|]. exists c. split; [reflexivity|].
    eapply cycle_at_impl; [|exact Hfin].
    intros cy (_ & ((_ & Hinv) & Hs & _) & Hcl). split; [exact Hcl|].
    unfold served in Hs. destruct (cy_pc cy) as [|err|err|err];
      destruct Hs as [Hs|Hs]; try discriminate; injection Hs as ->.
    + destruct Hinv as (Hcl' & _). congruence.
    + destruct Hinv as (_ & Hp & _). exact Hp.
Qed.

Lemma second_Shutdown_returns_witness :
  exists r w3, Shutdown Fixture.background [] Fixture.h2 Fixture.w2
               = (Returns r, Fixture.h2, w3).
Proof.
  destruct (second_Shutdown_returns Fixture.background Fixture.background
              [] [ServeReturns 0 (Some ErrServerClosed); Step 0]
              Fixture.h0 Fixture.h1 Fixture.h2 empty_world Fixture.w1 Fixture.w2)
    as [_ H].
  - vm_compute. reflexivity.
  - vm_compute. reflexivity.
  - vm_compute. reflexivity.
  - destruct (H Fixture.background []) as (r & h3 & w3 & Heq & -> & _).
    exists r, w3. exact Heq.
Defined.

(** ** The lifecycle state machine *)

Lemma tracks_Start (s : Lifecycle) (ctx : Context) (during : list Move)
    (h : Handle) (w : World) :
  tracks s h ->
  tracks (lifecycle_step s (CallStart ctx during) h w) (snd (fst (Start ctx during h w))).
Proof.
  unfold tracks. intros Hs. cbn [lifecycle_step]. unfold Start.
  destruct (ln h) as [l0|] eqn:Hln; cbn [fst snd]; [congruence|].
  destruct (listenFunc h (io_log w) "tcp" (listen_addr (srv h))) as [l|err] eqn:Hl;
    cbn [fst snd]; [|congruence].
  destruct (Start_probe ctx during h l _) as [[c perr] w_sel].
  destruct perr as [perr|]; [|reflexivity].
  destruct (try_recv c w_sel) as [[v w']|]; cbn [fst snd]; [congruence|].
  rewrite wrapNetErr_Some. congruence.
Qed.

Lemma tracks_Shutdown (s : Lifecycle) (ctx : Context) (during : list Move)
    (h : Handle) (w : World) :
  tracks s h ->
  tracks (lifecycle_step s (CallShutdown ctx during) h w)
         (snd (fst (Shutdown ctx during h w))).
Proof.
  unfold tracks. intros Hs. cbn [lifecycle_step]. unfold sentinel_delivered.
  pose proof (Shutdown_cases ctx during h w) as H.
  destruct (srv_Shutdown (srv h) (io_log w) ctx) as [err|]; [rewrite H; exact Hs|].
  cbv zeta in H. destruct (recv (errCh h) _) as [v w'| |]; rewrite H; try exact Hs.
  destruct (is_ErrServerClosed v); [reflexivity|exact Hs].
Qed.

Lemma tracks_run_calls (cs : list Call) :
  forall s h w, tracks s h ->
    tracks (fst (fst (run_calls cs s h w))) (snd (fst (run_calls cs s h w))).
Proof.
  induction cs as [|c cs IH]; intros s h w Hs; cbn [run_calls]; [exact Hs|].
  assert (Hstep : tracks (lifecycle_step s c h w) (snd (fst (do_call c h w)))).
  { destruct c as [ctx during|ctx during]; cbn [do_call];
      [apply tracks_Start|apply tracks_Shutdown]; exact Hs. }
  destruct (do_call c h w) as [[o h'] w']. cbn [fst snd] in Hstep.
  destruct o as [r|]; [apply IH; exact Hstep|exact Hstep].
Qed.

(** C1. Run any sequence of [Start] and [Shutdown] calls, with any
    environment and any scheduling, on a handle fresh from [NewHandle]. At
    the end, and so after every call on the way, the listener field is set
    exactly when the state machine is in [Running], and it is the listener
    the state machine is bound to; [Addr] answers the address of that
    listener when [Running] and nothing when [Idle]. On the fresh handle
    [Addr] answers nothing. *)
Theorem listener_iff_running
    (net_Listen : Hist -> string -> string -> Listener + GoError) (net_Dialer : dialer)
    (s : Server) (opts : list HandleOption) (cs : list Call) (w : World) :
  let h0 := NewHandle net_Listen net_Dialer s opts in
  let st := fst (fst (run_calls cs Idle h0 w)) in
  let h := snd (fst (run_calls cs Idle h0 w)) in
  Addr h0 = None
  /\ (ln h <> None <-> exists l, st = Running l)
  /\ ln h = match st with Idle => None | Running l => Some l end
  /\ Addr h = match st with Idle => None | Running l => Some (ln_Addr l) end.
Proof.
  cbv zeta. destruct (NewHandle_fresh net_Listen net_Dialer s opts) as (_ & Hln & _).
  pose proof (tracks_run_calls cs Idle (NewHandle net_Listen net_Dialer s opts) w Hln) as H.
  unfold tracks in H. unfold Addr. rewrite Hln, H.
  destruct (fst (fst (run_calls cs Idle _ w))) as [|l]; repeat split; try congruence.
  - intros [l Hl]. discriminate Hl.
  - intros _. exists l. reflexivity.
Qed.

(** * Further properties of the package *)

(** ** What calls leave alone *)

Lemma io_log_run_move (w : World) (m : Move) : io_log (run_move w m) = io_log w.
Proof.
  destruct (run_move_inv m w) as [->|(c & cy & cy' & _ & _ & ->)]; reflexivity.
Qed.

Lemma io_log_run_moves (ms : list Move) (w : World) : io_log (run_moves ms w) = io_log w.
Proof.
  unfold run_moves. revert w. induction ms as [|m ms IH]; intros w; cbn [fold_left];
    [reflexivity|]. rewrite IH. apply io_log_run_move.
Qed.

Lemma length_set_cycle (c : nat) (cy : Cycle) (w : World) :
  length (cycles (set_cycle c cy w)) = length (cycles w).
Proof. unfold set_cycle. cbn [cycles]. apply length_insert. Qed.

Lemma length_run_move (w : World) (m : Move) :
  length (cycles (run_move w m)) = length (cycles w).
Proof.
  destruct (run_move_inv m w) as [->|(c & cy & cy' & _ & _ & ->)];
    [reflexivity|apply length_set_cycle].
Qed.

Lemma length_run_moves (ms : list Move) (w : World) :
  length (cycles (run_moves ms w)) = length (cycles w).
Proof.
  unfold run_moves. revert w. induction ms as [|m ms IH]; intros w; cbn [fold_left];
    [reflexivity|]. rewrite IH. apply length_run_move.
Qed.

Lemma run_move_other (w : World) (m : Move) (c : nat) :
  move_target m <> c -> cycles (run_move w m) !! c = cycles w !! c.
Proof.
  intros Hne. destruct m as [c' err|c']; cbn [run_move move_target] in *.
  - destruct (cycles w !! c') as [cy|]; [|reflexivity].
    destruct (cy_pc cy); try reflexivity. apply lookup_set_cycle_ne. exact Hne.
  - destruct (task_step c' w) as [w'|] eqn:Hs; [|reflexivity].
    destruct (task_step_inv _ _ _ Hs) as (cy & cy' & _ & _ & ->).
    apply lookup_set_cycle_ne. exact Hne.
Qed.

Lemma run_moves_other (ms : list Move) (w : World) (c : nat) :
  Forall (fun m => move_target m <> c) ms ->
  cycles (run_moves ms w) !! c = cycles w !! c.
Proof.
  unfold run_moves. intros H. revert w.
  induction H as [|m ms Hm Hms IH]; intros w; cbn [fold_left]; [reflexivity|].
  rewrite IH. apply run_move_other. exact Hm.
Qed.

(** A completed receive on channel [c] touches cycle [c] only, and not the
    I/O log. *)
Lemma try_recv_frame (c : nat) (w w' : World) (v : error) :
  try_recv c w = Some (v, w') ->
  io_log w' = io_log w /\ length (cycles w') = length (cycles w)
  /\ forall c', c' <> c -> cycles w' !! c' = cycles w !! c'.
Proof.
  intros Hr. destruct (try_recv_inv _ _ _ _ Hr) as (cy & cy' & _ & _ & ->).
  split; [reflexivity|]. split; [apply length_set_cycle|].
  intros c' Hne. apply lookup_set_cycle_ne. congruence.
Qed.

Lemma recv_wait_frame (fuel : nat) (c : nat) (w w' : World) (v : error) :
  recv_wait fuel c w = Got v w' ->
  io_log w' = io_log w /\ length (cycles w') = length (cycles w)
  /\ forall c', c' <> c -> cycles w' !! c' = cycles w !! c'.
Proof.
  revert w. induction fuel as [|fuel IH]; intros w; cbn [recv_wait];
    destruct (try_recv c w) as [[v0 w0]|] eqn:Hr; try discriminate;
    try (intros [= <- <-]; eapply try_recv_frame; eauto).
  destruct (task_step c w) as [w1|] eqn:Hs; [|discriminate].
  intros Hgot. destruct (task_step_inv _ _ _ Hs) as (cy & cy' & _ & _ & ->).
  destruct (IH _ Hgot) as (H1 & H2 & H3).
  split; [exact H1|]. split; [rewrite H2; apply length_set_cycle|].
  intros c' Hne. rewrite H3 by exact Hne. apply lookup_set_cycle_ne. congruence.
Qed.

(** The world in which the [select] of [Start] runs: one cycle more, the
    prober's events appended to the log, the earlier cycles changed by the
    background moves only. *)
Lemma Start_probe_world (ctx : Context) (during : list Move) (h : Handle) (l : Listener)
    (w w_sel : World) (c : nat) (perr : error) :
  Start_probe ctx during h l w = (c, perr, w_sel) ->
  perr = fst (waitUntilAvailable ctx (newDialerFunc h ()) (ln_Addr l) (io_log w))
  /\ io_log w_sel
     = io_log w ++ snd (waitUntilAvailable ctx (newDialerFunc h ()) (ln_Addr l) (io_log w))
  /\ length (cycles w_sel) = S (length (cycles w))
  /\ cycle_at (fun cy => unread cy /\ cy_ln cy = l) c w_sel
  /\ forall c', c' < length (cycles w) ->
       Forall (fun m => move_target m <> c') during ->
       cycles w_sel !! c' = cycles w !! c'.
Proof.
  unfold Start_probe, go_Serve. cbn [io_log].
  destruct (waitUntilAvailable ctx (newDialerFunc h ()) (ln_Addr l) (io_log w)) as [r evs].
  cbn [fst snd]. intros [= <- <- <-].
  split; [reflexivity|]. split; [rewrite io_log_run_moves; reflexivity|].
  split; [rewrite length_run_moves; cbn [log_io cycles]; rewrite length_app; cbn; lia|].
  split.
  - apply cycle_at_run_moves.
    + intros cy cy' [Hu Hl] Hst. split; [eapply unread_producer_stable; eauto|].
      destruct Hst; exact Hl.
    + eexists. split; [cbn [log_io cycles]; apply list_lookup_middle; reflexivity|].
      repeat split.
  - intros c' Hlt Hms. rewrite run_moves_other by exact Hms.
    cbn [log_io cycles]. apply lookup_app_l. exact Hlt.
Qed.

(** ** [Start] *)

(** X1. [Start] returns nil exactly when the handle had no listener, the
    listener factory gave one and the prober answered nil; it then records
    that listener and the fresh channel. Whenever [Start] returns an error,
    the handle is left as it was. *)
Theorem Start_succeeds_iff (ctx : Context) (during : list Move) (h : Handle) (w : World) :
  let o := fst (fst (Start ctx during h w)) in
  let h' := snd (fst (Start ctx during h w)) in
  (o = Returns None <->
   ln h = None
   /\ exists l, listenFunc h (io_log w) "tcp" (listen_addr (srv h)) = inl l
                /\ fst (Start_waits ctx h l w) = None)
  /\ (o = Returns None ->
      exists l, listenFunc h (io_log w) "tcp" (listen_addr (srv h)) = inl l
        /\ h' = mkHandle (srv h) (Some l) (Some (length (cycles w)))
                  (listenFunc h) (newDialerFunc h))
  /\ (o <> Returns None -> h' = h /\ exists e, o = Returns (Some e)).
Proof.
  cbv zeta. unfold Start, Start_waits.
  destruct (ln h) as [l0|] eqn:Hln; cbn [fst snd].
  { repeat split; try discriminate; eauto.
    intros (H & _). discriminate H. }
  destruct (listenFunc h (io_log w) "tcp" (listen_addr (srv h))) as [l|err] eqn:Hl;
    cbn [fst snd].
  2:{ repeat split; try discriminate; eauto.
      intros (_ & l & H & _). discriminate H. }
  destruct (Start_probe ctx during h l _) as [[c perr] w_sel] eqn:Hp.
  destruct (Start_probe_unread _ _ _ _ _ _ _ _ Hp) as (Hc & _ & Hperr).
  cbn [log_io io_log cycles] in Hc, Hperr.
  destruct perr as [e|].
  - assert (Hnil : None <> fst (waitUntilAvailable ctx (newDialerFunc h ()) (ln_Addr l)
                                  (io_log w ++ [EvListen "tcp" (listen_addr (srv h))])))
      by (rewrite <- Hperr; discriminate).
    destruct (try_recv c w_sel) as [[v w0]|]; [|rewrite wrapNetErr_Some]; cbn [fst snd];
      (split; [split; [discriminate|intros (_ & l' & [= <-] & H); congruence]|]);
      (split; [discriminate|]); intros _; eauto.
  - cbn [fst snd]. split; [|split].
    + split; [intros _|reflexivity]. split; [reflexivity|].
      exists l. split; [reflexivity|]. symmetry. exact Hperr.
    + intros _. exists l. split; [reflexivity|]. rewrite Hc. reflexivity.
    + intros H. destruct H. reflexivity.
Qed.

Lemma Start_succeeds_iff_witness :
  fst (fst (Start Fixture.background [] Fixture.h0 empty_world)) = Returns None
  /\ snd (fst (Start Fixture.background [] Fixture.h_unreachable empty_world))
     = Fixture.h_unreachable.
Proof.
  split.
  - apply (proj1 (Start_succeeds_iff Fixture.background [] Fixture.h0 empty_world)).
    split; [reflexivity|]. exists (tcpKeepAliveListener Fixture.sock).
    split; reflexivity.
  - apply (proj2 (proj2 (Start_succeeds_iff Fixture.background [] Fixture.h_unreachable
                           empty_world))).
    vm_compute. discriminate.
Defined.

(** X2. [Start] launches one goroutine, serving the listener it got,
    when the handle was idle and the listener factory gave a listener, and
    none otherwise; goroutines launched earlier stay in the world. *)
Theorem Start_launches_one_goroutine
    (ctx : Context) (during : list Move) (h : Handle) (w : World) :
  let w' := snd (Start ctx during h w) in
  match ln h, listenFunc h (io_log w) "tcp" (listen_addr (srv h)) with
  | None, inl l =>
      length (cycles w') = S (length (cycles w))
      /\ cycle_at (fun cy => cy_ln cy = l) (length (cycles w)) w'
  | _, _ => cycles w' = cycles w
  end.
Proof.
  cbv zeta. unfold Start. destruct (ln h) as [l0|]; [reflexivity|].
  destruct (listenFunc h (io_log w) "tcp" (listen_addr (srv h))) as [l|err]; [|reflexivity].
  destruct (Start_probe ctx during h l _) as [[c perr] w_sel] eqn:Hp.
  destruct (Start_probe_unread _ _ _ _ _ _ _ _ Hp) as (Hc & _ & _).
  destruct (Start_probe_world _ _ _ _ _ _ _ _ Hp) as (_ & _ & Hlen & Hat & _).
  cbn [log_io cycles] in Hc, Hlen. subst c.
  assert (Hl : cycle_at (fun cy => cy_ln cy = l) (length (cycles w)) w_sel)
    by (eapply cycle_at_impl; [|exact Hat]; intros cy [_ H]; exact H).
  destruct perr as [e|]; [|cbn [snd]; auto].
  destruct (try_recv (length (cycles w)) w_sel) as [[v w0]|] eqn:Hr; cbn [snd].
  - destruct (try_recv_frame _ _ _ _ Hr) as (_ & Hlen' & _). split; [congruence|].
    destruct (try_recv_inv _ _ _ _ Hr) as (cy & cy' & Hcy & Hst & ->).
    eapply cycle_at_set; [exact Hcy| |exact Hl].
    intros _ H. destruct Hst; exact H.
  - split; [exact Hlen|exact Hl].
Qed.

(** A probe that answers nil has dialed, written the request line and read
    a byte, and has closed the connection last. *)
Lemma probe_nil_completed (ctx : Context) (d : dialer) (addr : string) (hist : Hist) :
  fst (waitUntilAvailable ctx d addr hist) = None ->
  exists id, probe_completed (snd (waitUntilAvailable ctx d addr hist)) addr id
             /\ closed_last (snd (waitUntilAvailable ctx d addr hist)) id.
Proof.
  probe_cases ctx d addr hist; intros H; try discriminate H;
    try (rewrite wrapNetErr_Some in H; discriminate H);
    exists (conn_id conn); (split; [unfold probe_completed; cbn; tauto|]);
    first [ apply (closed_last_intro _ [_; _]) | apply (closed_last_intro _ [_; _; _]) ];
    try discriminate; intros Hin; in_list.
Qed.

(** X3. [Start] returns nil only after the probe went through: the log
    then shows, after the listen, a dial to the address [Addr] now answers,
    the invalid request line written and one byte read on that connection,
    and the connection closed. *)
Theorem Start_returns_after_the_probe
    (ctx : Context) (during : list Move) (h h' : Handle) (w w' : World) :
  Start ctx during h w = (Returns None, h', w') ->
  exists a id evs,
    Addr h' = Some a
    /\ io_log w' = io_log w ++ EvListen "tcp" (listen_addr (srv h)) :: evs
    /\ probe_completed evs a id
    /\ closed_last evs id.
Proof.
  unfold Start. destruct (ln h) as [l0|]; [discriminate|].
  destruct (listenFunc h (io_log w) "tcp" (listen_addr (srv h))) as [l|err]; [|discriminate].
  destruct (Start_probe ctx during h l _) as [[c perr] w_sel] eqn:Hp.
  destruct (Start_probe_world _ _ _ _ _ _ _ _ Hp) as (Hperr & Hlog & _).
  cbn [log_io io_log] in Hperr, Hlog.
  destruct perr as [e|].
  { destruct (try_recv c w_sel) as [[v w0]|]; [discriminate|].
    rewrite wrapNetErr_Some. discriminate. }
  intros [= <- <-]. symmetry in Hperr.
  destruct (probe_nil_completed _ _ _ _ Hperr) as (id & Hdone & Hclosed).
  exists (ln_Addr l), id. eexists. split; [reflexivity|].
  split; [rewrite Hlog, <- app_assoc; reflexivity|]. split; assumption.
Qed.

Lemma Start_returns_after_the_probe_witness :
  exists evs,
    io_log Fixture.w1 = EvListen "tcp" ":0" :: evs
    /\ probe_completed evs "127.0.0.1:40123" 7.
Proof.
  destruct (Start_returns_after_the_probe Fixture.background [] Fixture.h0 Fixture.h1
              empty_world Fixture.w1) as (a & id & evs & Ha & Hlog & Hdone & _).
  - vm_compute. reflexivity.
  - injection Ha as <-. exists evs. split; [exact Hlog|].
    assert (id = 7) as ->; [|exact Hdone].
    destruct Hdone as (Hd & _). cbn in Hlog. injection Hlog as <-.
    cbn in Hd. repeat (destruct Hd as [Hd|Hd]; [try discriminate Hd; try (injection Hd as <-; reflexivity)|]).
    destruct Hd.
Defined.

(** X4. When [Start] fails after it got a listener, the listener does not
    stay open behind it: either closing it is the last thing [Start] did, or
    the [Serve] call on it has returned. *)
Theorem Start_failure_releases_the_listener
    (ctx : Context) (during : list Move) (h h' : Handle) (w w' : World)
    (l : Listener) (e : GoError) :
  ln h = None ->
  listenFunc h (io_log w) "tcp" (listen_addr (srv h)) = inl l ->
  Start ctx during h w = (Returns (Some e), h', w') ->
  (exists before, io_log w' = before ++ [EvListenerClose l])
  \/ cycle_at (fun cy => cy_ln cy = l /\ exists v, served v cy) (length (cycles w)) w'.
Proof.
  intros Hln Hl. unfold Start. rewrite Hln, Hl.
  destruct (Start_probe ctx during h l _) as [[c perr] w_sel] eqn:Hp.
  destruct (Start_probe_unread _ _ _ _ _ _ _ _ Hp) as (Hc & _ & _).
  destruct (Start_probe_world _ _ _ _ _ _ _ _ Hp) as (_ & _ & _ & (cy & Hcy & Hu & Hcl) & _).
  cbn [log_io cycles] in Hc. subst c.
  destruct perr as [pe|]; [|discriminate].
  destruct (try_recv (length (cycles w)) w_sel) as [[v w0]|] eqn:Hr.
  - intros [= _ _ <-]. right.
    destruct (try_recv_inv _ _ _ _ Hr) as (cy0 & cy' & Hcy0 & Hst & ->).
    assert (cy0 = cy) as -> by congruence.
    exists cy'. split; [eapply lookup_set_cycle_eq; eauto|].
    pose proof (consumer_step_unread _ _ _ Hu Hst) as Hs.
    destruct (consumer_step_producer_ops _ _ _ Hst) as [_ Hpc].
    split; [destruct Hst; exact Hcl|]. exists v. unfold served in *. rewrite Hpc. exact Hs.
  - intros [= _ _ <-]. left. eexists. reflexivity.
Qed.

Lemma Start_failure_releases_the_listener_witness :
  exists before,
    io_log (snd (Start Fixture.background [] Fixture.h_unreachable empty_world))
    = before ++ [EvListenerClose (tcpKeepAliveListener Fixture.sock)].
Proof.
  destruct (Start_failure_releases_the_listener Fixture.background []
              Fixture.h_unreachable Fixture.h_unreachable empty_world
              (snd (Start Fixture.background [] Fixture.h_unreachable empty_world))
              (tcpKeepAliveListener Fixture.sock)
              (Errorf "%s: %v"
                 [AStr "error waiting for server to start up";
                  AErr (Some (Errorf "%s: %v"
                                [ASprintf "failed to dial to %q" [AStr "127.0.0.1:40123"];
                                 AErr (Some Fixture.refused)]))]))
    as [H|H].
  - reflexivity.
  - reflexivity.
  - vm_compute. reflexivity.
  - exact H.
  - exfalso. destruct H as (cy & Hcy & _ & v & Hs). vm_compute in Hcy.
    injection Hcy as <-. destruct Hs as [Hs|Hs]; discriminate Hs.
Defined.

(** ** The readiness prober, further *)

(** X5. [wrapNetErr] answers nil exactly for nil, and
    [context.DeadlineExceeded] exactly for a network timeout; wrapping its
    answer a second time, under another message, does not change that. *)
Theorem wrapNetErr_keeps_timeouts
    (err : error) (msg msg' : string) (args args' : list FmtArg) :
  let timed_out := exists e, err = Some e /\ is_net_timeout e = true in
  (wrapNetErr err msg args = None <-> err = None)
  /\ (wrapNetErr err msg args = Some DeadlineExceeded <-> timed_out)
  /\ (wrapNetErr (wrapNetErr err msg args) msg' args' = Some DeadlineExceeded <-> timed_out)
  /\ (wrapNetErr (wrapNetErr err msg args) msg' args' = None <-> err = None).
Proof.
  cbv zeta. destruct err as [e|]; cbn [wrapNetErr].
  - destruct (is_net_timeout e) eqn:Ht; cbn [wrapNetErr is_net_timeout];
      repeat split; try discriminate; eauto;
      intros (e' & [= <-] & He'); congruence.
  - repeat split; try discriminate; intros (e' & He' & _); discriminate He'.
Qed.

Lemma probe_timeout (ctx : Context) (d : dialer) (addr : string) (hist : Hist)
    (st : ProbeStep) (err : GoError) :
  step_failed (snd (waitUntilAvailable ctx d addr hist)) addr st err ->
  is_net_timeout err = true ->
  fst (waitUntilAvailable ctx d addr hist) = Some DeadlineExceeded.
Proof.
  probe_cases ctx d addr hist; destruct st; cbn [step_failed];
    intros H Ht; in_list;
    repeat match goal with
           | H : _ = _ :> Event |- _ => injection H as H; subst
           end;
    try rewrite wrapNetErr_Some; try rewrite Ht; try reflexivity.
Qed.

(** X6. The prober answers [context.DeadlineExceeded] exactly when its
    dial, its write or its read failed with a network timeout. A failing
    [SetDeadline] is reported under its own message, with the deadline and
    the cause, also when the cause is a timeout, and no write follows it. *)
Theorem prober_DeadlineExceeded_iff_timeout
    (ctx : Context) (d : dialer) (addr : string) (hist : Hist) :
  let r := fst (waitUntilAvailable ctx d addr hist) in
  let evs := snd (waitUntilAvailable ctx d addr hist) in
  (r = Some DeadlineExceeded <->
   exists st err, step_failed evs addr st err /\ is_net_timeout err = true)
  /\ (forall id t e, In (EvSetDeadline id t (Some e)) evs ->
        r = Some (Errorf "failed to set connection deadline to %v: %v"
                         [ATime t; AErr (Some e)])
        /\ forall id' data r', ~ In (EvWrite id' data r') evs).
Proof.
  cbv zeta. split; [split|].
  - probe_cases ctx d addr hist; intros H; try discriminate H;
      rewrite wrapNetErr_Some in H;
      match type of H with
      | context [is_net_timeout ?e] =>
          destruct (is_net_timeout e) eqn:Ht; [|discriminate H]
      end.
    + exists StepWrite, werr. split; [exists (conn_id conn); cbn; tauto|exact Ht].
    + exists StepRead, rerr. split; [exists (conn_id conn); cbn; tauto|exact Ht].
    + exists StepWrite, werr. split; [exists (conn_id conn); cbn; tauto|exact Ht].
    + exists StepRead, rerr. split; [exists (conn_id conn); cbn; tauto|exact Ht].
    + exists StepDial, derr. split; [cbn; tauto|exact Ht].
  - intros (st & err & Hf & Ht). eapply probe_timeout; eauto.
  - probe_cases ctx d addr hist; intros id t e H; in_list;
      match goal with H : _ = EvSetDeadline _ _ _ |- _ => injection H as <- <- <- end.
    split; [reflexivity|]. intros id' data r' H. in_list.
Qed.

Lemma prober_DeadlineExceeded_iff_timeout_witness :
  fst (waitUntilAvailable Fixture.with_deadline (Fixture.dial_to Scenario.conn_no_deadline)
         "127.0.0.1:40123" [])
  = Some (Errorf "failed to set connection deadline to %v: %v"
                 [ATime 5000%Z; AErr (Some Fixture.timed_out)]).
Proof.
  apply (proj2 (prober_DeadlineExceeded_iff_timeout Fixture.with_deadline
                  (Fixture.dial_to Scenario.conn_no_deadline) "127.0.0.1:40123" [])
           9 5000%Z Fixture.timed_out).
  vm_compute. tauto.
Defined.

(** X7. A probe is one short conversation on one connection: at most five
    events, all on the connection its dial gave; the only thing it writes is
    the invalid request line; it reads one byte, and only after that line
    went out; it listens on nothing and shuts nothing down. *)
Theorem prober_is_one_conversation
    (ctx : Context) (d : dialer) (addr : string) (hist : Hist) :
  let evs := snd (waitUntilAvailable ctx d addr hist) in
  length evs <= 5
  /\ forall e, In e evs ->
       match e with
       | EvDial network address _ => network = "tcp" /\ address = addr
       | EvSetDeadline id _ _ | EvConnClose id => In (EvDial "tcp" addr (inl id)) evs
       | EvWrite id data _ =>
           data = _invalidHTTPRequestLine /\ In (EvDial "tcp" addr (inl id)) evs
       | EvRead id n _ =>
           n = 1 /\ In (EvWrite id _invalidHTTPRequestLine None) evs
       | EvListen _ _ | EvListenerClose _ | EvSrvShutdown _ => False
       end.
Proof.
  cbv zeta. probe_cases ctx d addr hist; (split; [cbn; lia|]);
    intros e H; in_list; subst; cbn; tauto.
Qed.

(** ** [Start], further *)

(** X8. When the prober of [Start] failed on a network timeout, at the
    dial, the write or the read, [Start] answers exactly
    [context.DeadlineExceeded] and closes the listener, unless the serve
    goroutine had reported by then, in which case it answers that report. *)
Theorem Start_timeout_is_DeadlineExceeded
    (ctx : Context) (during : list Move) (h : Handle) (w : World)
    (l : Listener) (st : ProbeStep) (err : GoError) :
  ln h = None ->
  listenFunc h (io_log w) "tcp" (listen_addr (srv h)) = inl l ->
  step_failed (snd (Start_waits ctx h l w)) (ln_Addr l) st err ->
  is_net_timeout err = true ->
  let o := fst (fst (Start ctx during h w)) in
  let w' := snd (Start ctx during h w) in
  (o = Returns (Some DeadlineExceeded)
   /\ exists before, io_log w' = before ++ [EvListenerClose l])
  \/ (exists v, o = Returns (Some (Errorf "error starting HTTP server: %v" [AErr v]))
                /\ cycle_at (served v) (length (cycles w)) w').
Proof.
  intros Hln Hl Hf Ht. cbv zeta. unfold Start. rewrite Hln, Hl.
  destruct (Start_probe ctx during h l _) as [[c perr] w_sel] eqn:Hp.
  destruct (Start_probe_unread _ _ _ _ _ _ _ _ Hp) as (Hc & _ & _).
  destruct (Start_probe_world _ _ _ _ _ _ _ _ Hp) as (Hperr & _ & _ & (cy & Hcy & Hu & _) & _).
  cbn [log_io cycles io_log] in Hc, Hperr. subst c.
  unfold Start_waits in Hf. rewrite (probe_timeout _ _ _ _ _ _ Hf Ht) in Hperr. subst perr.
  destruct (try_recv (length (cycles w)) w_sel) as [[v w0]|] eqn:Hr; cbn [fst snd].
  - right. exists v. split; [reflexivity|].
    destruct (try_recv_inv _ _ _ _ Hr) as (cy0 & cy' & Hcy0 & Hst & ->).
    assert (cy0 = cy) as -> by congruence.
    exists cy'. split; [eapply lookup_set_cycle_eq; eauto|].
    pose proof (consumer_step_unread _ _ _ Hu Hst) as Hs.
    destruct (consumer_step_producer_ops _ _ _ Hst) as [_ Hpc].
    unfold served in *. rewrite Hpc. exact Hs.
  - left. split; [reflexivity|]. eexists. reflexivity.
Qed.

Lemma Start_timeout_is_DeadlineExceeded_witness :
  fst (fst (Start Fixture.with_deadline [] Scenario.h_silent empty_world))
  = Returns (Some DeadlineExceeded).
Proof.
  destruct (Start_timeout_is_DeadlineExceeded Fixture.with_deadline [] Scenario.h_silent
              empty_world (tcpKeepAliveListener Fixture.sock) StepRead Fixture.timed_out)
    as [[H _]|(v & H & _)].
  - reflexivity.
  - reflexivity.
  - exists 7. vm_compute. tauto.
  - reflexivity.
  - exact H.
  - vm_compute in H. discriminate H.
Defined.

(** ** [NewHandle] and its options *)

Lemma apply_options_listenFunc (opts : list HandleOption) (h : Handle) :
  forallb (fun o => negb (is_ListenFunc o)) opts = true ->
  listenFunc (fold_left apply_option opts h) = listenFunc h.
Proof.
  revert h. induction opts as [|o opts IH]; intros h; cbn [fold_left forallb]; [reflexivity|].
  intros H. apply andb_true_iff in H. destruct H as [Ho Hopts].
  rewrite IH by exact Hopts. destruct o; [discriminate Ho|reflexivity].
Qed.

Lemma apply_options_newDialerFunc (opts : list HandleOption) (h : Handle) :
  forallb (fun o => negb (is_NewDialerFunc o)) opts = true ->
  newDialerFunc (fold_left apply_option opts h) = newDialerFunc h.
Proof.
  revert h. induction opts as [|o opts IH]; intros h; cbn [fold_left forallb]; [reflexivity|].
  intros H. apply andb_true_iff in H. destruct H as [Ho Hopts].
  rewrite IH by exact Hopts. destruct o; [reflexivity|discriminate Ho].
Qed.

(** X9. Among the options given to [NewHandle] the last one of a kind
    wins, and an option of one kind leaves the other setting alone: without
    a [ListenFunc] option the handle listens through [DefaultListenFunc],
    without a dialer option it dials through [newDialer]. No option gives a
    new handle a listener or a channel. *)
Theorem NewHandle_last_option_wins
    (net_Listen : Hist -> string -> string -> Listener + GoError) (net_Dialer : dialer)
    (s : Server) (before after : list HandleOption) :
  let h_of := NewHandle net_Listen net_Dialer s in
  (forall f, forallb (fun o => negb (is_ListenFunc o)) after = true ->
     listenFunc (h_of (before ++ ListenFunc f :: after)) = f)
  /\ (forall g, forallb (fun o => negb (is_NewDialerFunc o)) after = true ->
        newDialerFunc (h_of (before ++ NewDialerFunc g :: after)) = g)
  /\ (forallb (fun o => negb (is_ListenFunc o)) after = true ->
      listenFunc (h_of after) = DefaultListenFunc net_Listen)
  /\ (forallb (fun o => negb (is_NewDialerFunc o)) after = true ->
      newDialerFunc (h_of after) = newDialer net_Dialer)
  /\ ln (h_of (before ++ after)) = None /\ errCh (h_of (before ++ after)) = None.
Proof.
  cbv zeta. unfold NewHandle. repeat split.
  - intros f H. rewrite fold_left_app. cbn [fold_left].
    rewrite apply_options_listenFunc by exact H. reflexivity.
  - intros g H. rewrite fold_left_app. cbn [fold_left].
    rewrite apply_options_newDialerFunc by exact H. reflexivity.
  - intros H. rewrite apply_options_listenFunc by exact H. reflexivity.
  - intros H. rewrite apply_options_newDialerFunc by exact H. reflexivity.
  - apply apply_options_fields.
  - apply apply_options_fields.
Qed.

Lemma NewHandle_last_option_wins_witness :
  listenFunc (NewHandle Fixture.listen_tcp (Fixture.dial_to Fixture.conn_ok) Fixture.server
                [ListenFunc Fixture.listen_tcp; ListenFunc Scenario.listen_fails;
                 NewDialerFunc (fun _ => Fixture.dial_fails Fixture.refused)])
  = Scenario.listen_fails.
Proof.
  apply (proj1 (NewHandle_last_option_wins Fixture.listen_tcp (Fixture.dial_to Fixture.conn_ok)
                  Fixture.server [ListenFunc Fixture.listen_tcp]
                  [NewDialerFunc (fun _ => Fixture.dial_fails Fixture.refused)])
           Scenario.listen_fails).
  reflexivity.
Defined.

(** X10. A handle built without a [ListenFunc] option, as [StartServer]
    builds it, that starts successfully holds what [net.Listen] returned for
    "tcp" and the server's address, wrapped in the keep-alive listener when
    that is a TCP listener: never a bare TCP listener. *)
Theorem default_handle_keeps_alive
    (net_Listen : Hist -> string -> string -> Listener + GoError) (net_Dialer : dialer)
    (s : Server) (opts : list HandleOption)
    (ctx : Context) (during : list Move) (w w' : World) (h' : Handle) :
  forallb (fun o => negb (is_ListenFunc o)) opts = true ->
  Start ctx during (NewHandle net_Listen net_Dialer s opts) w = (Returns None, h', w') ->
  exists l, ln h' = Some l
    /\ (forall t, l <> TCPListener t)
    /\ match net_Listen (io_log w) "tcp" (listen_addr s) with
       | inl (TCPListener t) => l = tcpKeepAliveListener t
       | inl other => l = other
       | inr _ => False
       end.
Proof.
  intros Hopts HStart.
  destruct (Start_ready_inv _ _ _ _ _ _ HStart) as (l & c & _ & Hl & -> & _).
  destruct (NewHandle_fresh net_Listen net_Dialer s opts) as (Hsrv & _ & _).
  rewrite Hsrv in Hl. unfold NewHandle in Hl.
  rewrite apply_options_listenFunc in Hl by exact Hopts. cbn [listenFunc] in Hl.
  unfold DefaultListenFunc in Hl.
  exists l. split; [reflexivity|].
  destruct (net_Listen (io_log w) "tcp" (listen_addr s)) as [[t|o|k]|err];
    try discriminate Hl; injection Hl as <-; split; try reflexivity; discriminate.
Qed.

Lemma default_handle_keeps_alive_witness :
  ln Fixture.h1 = Some (tcpKeepAliveListener Fixture.sock).
Proof.
  destruct (default_handle_keeps_alive Fixture.listen_tcp (Fixture.dial_to Fixture.conn_ok)
              Fixture.server [] Fixture.background [] empty_world Fixture.w1 Fixture.h1)
    as (l & Hl & _ & Hm).
  - reflexivity.
  - vm_compute. reflexivity.
  - cbn in Hm. rewrite Hl, Hm. reflexivity.
Defined.

(** ** The serving goroutine and its channel, further *)

(** X11. The goroutine of a cycle made by [Start] never waits to send:
    once [Serve] has returned, its two remaining statements run and leave
    the channel closed, whether or not anyone has received or ever will. *)
Theorem serve_goroutine_finishes (c : nat) (w : World) (cy : Cycle) :
  cycles w !! c = Some cy -> cycle_inv cy -> cy_pc cy <> Serving ->
  cycle_at (fun cy' => cycle_inv cy' /\ ch_closed (cy_ch cy') = true
                       /\ exists e, cy_pc cy' = Exited e
                            /\ producer_ops cy' = [OpSend e; OpClose])
    c (run_moves [Step c; Step c] w).
Proof.
  intros Hc Hinv Hpc. unfold run_moves. cbn [fold_left run_move].
  assert (Hfin : forall w1 cy1, cycles w1 !! c = Some cy1 -> cycle_inv cy1 ->
                   (exists e, cy_pc cy1 = Sent e) \/ (exists e, cy_pc cy1 = Exited e) ->
                   cycle_at (fun cy' => cycle_inv cy' /\ ch_closed (cy_ch cy') = true
                                        /\ exists e, cy_pc cy' = Exited e
                                             /\ producer_ops cy' = [OpSend e; OpClose])
                     c (match task_step c w1 with Some w' => w' | None => w1 end)).
  { intros w1 cy1 Hc1 Hinv1 [[e He]|[e He]].
    - unfold task_step. rewrite Hc1, He.
      eexists. split; [eapply lookup_set_cycle_eq; eauto|].
      assert (Hst : producer_step cy1
                      (mkCycle (cy_ln cy1)
                               (mkChan (ch_cap (cy_ch cy1)) (ch_buf (cy_ch cy1)) true)
                               (Exited e) (cy_ops cy1 ++ [OpClose])))
        by (apply ps_close; exact He).
      pose proof (cycle_inv_producer_stable _ _ Hinv1 Hst) as Hinv'.
      split; [exact Hinv'|]. split; [reflexivity|]. exists e. split; [reflexivity|].
      destruct Hinv' as (_ & H). cbn [cy_pc] in H. tauto.
    - unfold task_step. rewrite Hc1, He. exists cy1. split; [exact Hc1|].
      split; [exact Hinv1|]. destruct Hinv1 as (_ & H). rewrite He in H.
      split; [tauto|]. exists e. split; [exact He|tauto]. }
  destruct (cy_pc cy) as [|e|e|e] eqn:Hpc'; [congruence| | |].
  - assert (Hs : task_step c w =
                 Some (set_cycle c
                         (mkCycle (cy_ln cy)
                                  (mkChan (ch_cap (cy_ch cy)) (ch_buf (cy_ch cy) ++ [e]) false)
                                  (Sent e) (cy_ops cy ++ [OpSend e])) w)).
    { unfold task_step. rewrite Hc, Hpc'. destruct Hinv as (Hcap & Hinv).
      rewrite Hpc' in Hinv. destruct Hinv as (Hb & Hcl & _). rewrite Hcl, Hb, Hcap.
      reflexivity. }
    rewrite Hs. eapply Hfin.
    + eapply lookup_set_cycle_eq; eauto.
    + eapply cycle_inv_producer_stable; [exact Hinv|].
      destruct Hinv as (Hcap & Hinv). rewrite Hpc' in Hinv. destruct Hinv as (Hb & Hcl & _).
      apply ps_send; [exact Hpc'|exact Hcl|]. rewrite Hb, Hcap. cbn. lia.
    + left. exists e. reflexivity.
  - pose proof (Hfin w cy Hc Hinv (or_introl (ex_intro _ e Hpc'))) as (cy1 & Hc1 & Hinv1 & Hcl1 & e1 & He1 & Hp1).
    eapply Hfin; eauto.
  - assert (Hs : task_step c w = None) by (unfold task_step; rewrite Hc, Hpc'; reflexivity).
    rewrite Hs. eapply Hfin; eauto.
Qed.

Lemma serve_goroutine_finishes_witness :
  cycle_at (fun cy' => ch_closed (cy_ch cy') = true)
    0 (run_moves [Step 0; Step 0]
         (run_moves [ServeReturns 0 (Some Fixture.accept_failed)] Fixture.w1)).
Proof.
  eapply cycle_at_impl;
    [|eapply (serve_goroutine_finishes 0
                (run_moves [ServeReturns 0 (Some Fixture.accept_failed)] Fixture.w1))].
  - intros cy (_ & H & _). exact H.
  - vm_compute. reflexivity.
  - vm_compute. repeat split.
  - vm_compute. discriminate.
Defined.

(** X12. A call touches the cycle of its own channel only: [Start]
    leaves every cycle that existed as it was, and [Shutdown] every cycle
    but the one of the handle's channel, the background moves on other
    cycles apart. *)
Theorem calls_touch_their_own_cycle
    (ctx : Context) (during : list Move) (h : Handle) (w : World) (c' : nat) :
  Forall (fun m => move_target m <> c') during ->
  (c' < length (cycles w) -> cycles (snd (Start ctx during h w)) !! c' = cycles w !! c')
  /\ (errCh h <> Some c' -> cycles (snd (Shutdown ctx during h w)) !! c' = cycles w !! c').
Proof.
  intros Hms. split.
  - intros Hlt. unfold Start. destruct (ln h) as [l0|]; [reflexivity|].
    destruct (listenFunc h (io_log w) "tcp" (listen_addr (srv h))) as [l|err]; [|reflexivity].
    destruct (Start_probe ctx during h l _) as [[c perr] w_sel] eqn:Hp.
    destruct (Start_probe_unread _ _ _ _ _ _ _ _ Hp) as (Hc & _ & _).
    destruct (Start_probe_world _ _ _ _ _ _ _ _ Hp) as (_ & _ & _ & _ & Hsame).
    cbn [log_io cycles] in Hc, Hsame.
    destruct perr as [e|]; [|cbn [snd]; auto].
    destruct (try_recv c w_sel) as [[v w0]|] eqn:Hr; cbn [snd]; [|cbn [log_io cycles]; auto].
    destruct (try_recv_frame _ _ _ _ Hr) as (_ & _ & Hother).
    rewrite Hother by lia. auto.
  - intros Hne. pose proof (Shutdown_cases ctx during h w) as H.
    destruct (srv_Shutdown (srv h) (io_log w) ctx) as [err|]; [rewrite H; reflexivity|].
    cbv zeta in H.
    assert (Hw1 : cycles (run_moves during (log_io [EvSrvShutdown None] w)) !! c'
                  = cycles w !! c') by (rewrite run_moves_other by exact Hms; reflexivity).
    destruct (errCh h) as [c|]; cbn [recv] in H.
    + destruct (recv_wait 2 c _) as [v w1| |] eqn:Hr; try (rewrite H; exact Hw1).
      destruct (recv_wait_frame _ _ _ _ _ Hr) as (_ & _ & Hother).
      destruct (is_ErrServerClosed v); rewrite H; cbn [snd];
        (rewrite Hother by congruence); exact Hw1.
    + rewrite H. exact Hw1.
Qed.

Lemma calls_touch_their_own_cycle_witness :
  cycles Scenario.w3 !! 0 = cycles Fixture.w2 !! 0.
Proof.
  destruct (calls_touch_their_own_cycle Fixture.background [] Fixture.h2 Fixture.w2 0)
    as [H _].
  - constructor.
  - apply H. vm_compute. lia.
Defined.

(** ** [Start] and [Shutdown] together *)

(** A waiting receive on a channel nothing was received from is decided by
    where the goroutine stands. *)
Lemma recv_unread (c : nat) (w : World) (cy : Cycle) :
  cycles w !! c = Some cy -> unread cy ->
  match cy_pc cy with
  | Serving => recv (Some c) w = Never
  | Returned v | Sent v | Exited v => exists w', recv (Some c) w = Got v w'
  end.
Proof.
  intros Hc [(Hcap & Hinv) Hu].
  destruct (cy_pc cy) as [|v|v|v] eqn:Hpc; cbn [recv recv_wait]; unfold try_recv at 1;
    rewrite Hc; cbv beta iota zeta.
  - destruct Hinv as (Hb & Hcl & _). rewrite Hb, Hcl. unfold task_step.
    rewrite Hc, Hpc. reflexivity.
  - destruct Hinv as (Hb & Hcl & _). rewrite Hb, Hcl. unfold task_step.
    rewrite Hc. cbv beta iota zeta. rewrite Hpc, Hcl, Hb, Hcap.
    cbn [length Nat.ltb Nat.leb app].
    unfold try_recv. erewrite lookup_set_cycle_eq by exact Hc. cbn. eauto.
  - destruct Hinv as (_ & _ & Hb). rewrite Hu in Hb. rewrite Hb. eauto.
  - destruct Hinv as (_ & _ & Hb). rewrite Hu in Hb. rewrite Hb. eauto.
Qed.

(** X13. After a successful [Start], the first [Shutdown] whose graceful
    shutdown reported no error is decided by the [Serve] call of the
    goroutine. If [Serve] has not returned and will not, [Shutdown] blocks
    forever. If it returned the sentinel, [Shutdown] returns nil and clears
    the listener. If it returned anything else, [Shutdown] returns that and
    the listener stays set. *)
Theorem first_Shutdown_follows_Serve
    (ctx1 ctx2 : Context) (m1 m2 : list Move) (h0 h1 : Handle) (w0 w1 : World) :
  Start ctx1 m1 h0 w0 = (Returns None, h1, w1) ->
  srv_Shutdown (srv h1) (io_log w1) ctx2 = None ->
  exists c cy,
    errCh h1 = Some c
    /\ cycles (run_moves m2 (log_io [EvSrvShutdown None] w1)) !! c = Some cy
    /\ match cy_pc cy with
       | Serving => fst (fst (Shutdown ctx2 m2 h1 w1)) = BlocksForever
       | Returned v | Sent v | Exited v =>
           fst (fst (Shutdown ctx2 m2 h1 w1))
           = Returns (if is_ErrServerClosed v then None else v)
           /\ ln (snd (fst (Shutdown ctx2 m2 h1 w1)))
              = (if is_ErrServerClosed v then None else ln h1)
       end.
Proof.
  intros HStart Hsrv.
  destruct (Start_ready_inv _ _ _ _ _ _ HStart) as (l & c & _ & _ & -> & Hu).
  cbn [srv] in Hsrv.
  assert (Hu' : cycle_at unread c (run_moves m2 (log_io [EvSrvShutdown None] w1))).
  { apply cycle_at_run_moves; [exact unread_producer_stable|].
    apply cycle_at_log_io. exact Hu. }
  destruct Hu' as (cy & Hcy & Hcyu).
  exists c, cy. split; [reflexivity|]. split; [exact Hcy|].
  pose proof (Shutdown_cases ctx2 m2
                (mkHandle (srv h0) (Some l) (Some c) (listenFunc h0) (newDialerFunc h0)) w1)
    as H. cbn [srv errCh listenFunc newDialerFunc] in H. rewrite Hsrv in H. cbv zeta in H.
  pose proof (recv_unread _ _ _ Hcy Hcyu) as Hr.
  destruct (cy_pc cy) as [|v|v|v].
  - rewrite Hr in H. rewrite H. reflexivity.
  - destruct Hr as [w' Hr]. rewrite Hr in H. rewrite H.
    destruct (is_ErrServerClosed v); split; reflexivity.
  - destruct Hr as [w' Hr]. rewrite Hr in H. rewrite H.
    destruct (is_ErrServerClosed v); split; reflexivity.
  - destruct Hr as [w' Hr]. rewrite Hr in H. rewrite H.
    destruct (is_ErrServerClosed v); split; reflexivity.
Qed.

Lemma first_Shutdown_follows_Serve_witness :
  fst (fst (Shutdown Fixture.background [] Fixture.h1 Fixture.w1)) = BlocksForever.
Proof.
  destruct (first_Shutdown_follows_Serve Fixture.background Fixture.background [] []
              Fixture.h0 Fixture.h1 empty_world Fixture.w1)
    as (c & cy & Hc & Hcy & H).
  - vm_compute. reflexivity.
  - reflexivity.
  - vm_compute in Hc. injection Hc as <-.
    vm_compute in Hcy. injection Hcy as <-. exact H.
Defined.

(** What a successful [Start] does to the world around the new cycle. *)
Lemma Start_ready_fresh (ctx : Context) (during : list Move) (h h' : Handle) (w w' : World) :
  Start ctx during h w = (Returns None, h', w') ->
  ln h = None
  /\ errCh h' = Some (length (cycles w))
  /\ cycle_at unread (length (cycles w)) w'
  /\ forall P c, producer_stable P -> cycle_at P c w -> cycle_at P c w'.
Proof.
  unfold Start. destruct (ln h) as [l0|]; [discriminate|].
  destruct (listenFunc h (io_log w) "tcp" (listen_addr (srv h))) as [l|err]; [|discriminate].
  destruct (Start_probe ctx during h l _) as [[c perr] w_sel] eqn:Hp.
  destruct (Start_probe_unread _ _ _ _ _ _ _ _ Hp) as (Hc & Hu & _).
  cbn [log_io cycles] in Hc. subst c.
  destruct perr as [e|].
  { destruct (try_recv _ w_sel) as [[v w0]|]; [discriminate|].
    rewrite wrapNetErr_Some. discriminate. }
  intros [= <- <-]. split; [reflexivity|]. split; [reflexivity|]. split; [exact Hu|].
  intros P c HP (cy & Hcy & HPcy). unfold Start_probe, go_Serve in Hp.
  destruct (waitUntilAvailable ctx (newDialerFunc h ()) (ln_Addr l) _) as [r evs].
  injection Hp as _ <-. apply cycle_at_run_moves; [exact HP|].
  exists cy. split; [|exact HPcy]. cbn [log_io cycles].
  rewrite lookup_app_l; [exact Hcy|]. eapply lookup_lt_Some. exact Hcy.
Qed.

Lemma Shutdown_length (ctx : Context) (during : list Move) (h : Handle) (w : World) :
  length (cycles (snd (Shutdown ctx during h w))) = length (cycles w).
Proof.
  pose proof (Shutdown_cases ctx during h w) as H.
  destruct (srv_Shutdown (srv h) (io_log w) ctx) as [err|]; [rewrite H; reflexivity|].
  cbv zeta in H.
  assert (Hw1 : length (cycles (run_moves during (log_io [EvSrvShutdown None] w)))
                = length (cycles w)) by (rewrite length_run_moves; reflexivity).
  destruct (errCh h) as [c|]; cbn [recv] in H; [|rewrite H; exact Hw1].
  destruct (recv_wait 2 c _) as [v w1| |] eqn:Hr; try (rewrite H; exact Hw1).
  destruct (recv_wait_frame _ _ _ _ _ Hr) as (_ & Hlen & _).
  destruct (is_ErrServerClosed v); rewrite H; cbn [snd]; congruence.
Qed.

(** X14. A handle can be started again only after a [Shutdown] that
    returned nil, and the second [Start] makes a channel of its own: the
    handle's channel is a new one, nothing has been received from it, and
    the channel of the first cycle stays behind, drained, with the sentinel
    as its one value. *)
Theorem restart_makes_a_fresh_channel
    (ctx1 ctx2 ctx3 : Context) (m1 m2 m3 : list Move)
    (h0 h1 h2 h3 : Handle) (w0 w1 w2 w3 : World) (o : Outcome) :
  Start ctx1 m1 h0 w0 = (Returns None, h1, w1) ->
  Shutdown ctx2 m2 h1 w1 = (o, h2, w2) ->
  Start ctx3 m3 h2 w2 = (Returns None, h3, w3) ->
  o = Returns None
  /\ exists c c',
       errCh h1 = Some c /\ errCh h3 = Some c' /\ c < c'
       /\ cycle_at unread c' w3
       /\ cycle_at (drained (Some ErrServerClosed)) c w3.
Proof.
  intros HS1 HSh HS2.
  destruct (Start_ready_inv _ _ _ _ _ _ HS1) as (l & c & _ & _ & -> & Hu).
  destruct (Start_ready_fresh _ _ _ _ _ _ HS2) as (Hidle & Hch3 & Hu3 & Hframe).
  pose proof (Shutdown_length ctx2 m2
                (mkHandle (srv h0) (Some l) (Some c) (listenFunc h0) (newDialerFunc h0)) w1)
    as Hlen. rewrite HSh in Hlen. cbn [snd] in Hlen.
  pose proof (Shutdown_cases ctx2 m2
                (mkHandle (srv h0) (Some l) (Some c) (listenFunc h0) (newDialerFunc h0)) w1)
    as H. cbn [srv errCh listenFunc newDialerFunc ln] in H. rewrite HSh in H.
  destruct (srv_Shutdown (srv h0) (io_log w1) ctx2) as [err|].
  { injection H as _ -> _. discriminate Hidle. }
  cbv zeta in H. cbn [recv] in H.
  destruct (recv_wait 2 c _) as [v w2'| |] eqn:Hr;
    try (injection H as _ -> _; discriminate Hidle).
  destruct (is_ErrServerClosed v) eqn:Hv; [|injection H as _ -> _; discriminate Hidle].
  injection H as -> -> ->. split; [reflexivity|].
  assert (v = Some ErrServerClosed) as ->
    by (destruct v as [[]|]; try discriminate Hv; reflexivity).
  destruct (recv_wait_establishes unread drained c unread_producer_stable
              unread_recv_drained _ _ _ _
              (cycle_at_run_moves _ _ m2 _ unread_producer_stable
                 (proj2 (cycle_at_log_io _ _ [EvSrvShutdown None] _) Hu)) Hr)
    as [Hd _].
  exists c, (length (cycles w2')). split; [reflexivity|]. split; [exact Hch3|].
  split.
  - destruct Hu as (cy & Hcy & _). apply lookup_lt_Some in Hcy. lia.
  - split; [exact Hu3|]. apply Hframe; [apply drained_producer_stable|exact Hd].
Qed.

Lemma restart_makes_a_fresh_channel_witness :
  errCh Fixture.h1 = Some 0 /\ errCh Scenario.h3 = Some 1.
Proof.
  destruct (restart_makes_a_fresh_channel Fixture.background Fixture.background
              Fixture.background [] [ServeReturns 0 (Some ErrServerClosed); Step 0] []
              Fixture.h0 Fixture.h1 Fixture.h2 Scenario.h3
              empty_world Fixture.w1 Fixture.w2 Scenario.w3 (Returns None))
    as (_ & c & c' & H1 & H3 & _).
  - vm_compute. reflexivity.
  - vm_compute. reflexivity.
  - vm_compute. reflexivity.
  - split; reflexivity.
Defined.

Lemma wedged_Shutdown (l : Listener) (c : nat) (v : error) (ctx : Context)
    (during : list Move) (h : Handle) (w : World) :
  wedged l c v h w ->
  exists r w', Shutdown ctx during h w = (Returns r, h, w') /\ wedged l c v h w'
    /\ (srv_Shutdown (srv h) (io_log w) ctx = None -> r = None).
Proof.
  intros (Hln & Hch & Hd). pose proof (Shutdown_cases ctx during h w) as H.
  destruct (srv_Shutdown (srv h) (io_log w) ctx) as [err|].
  { do 2 eexists. split; [exact H|]. split; [|discriminate].
    repeat split; assumption. }
  cbv zeta in H. rewrite Hch in H. cbn [recv] in H.
  assert (Hd1 : cycle_at (drained v) c (run_moves during (log_io [EvSrvShutdown None] w))).
  { apply cycle_at_run_moves; [apply drained_producer_stable|].
    apply cycle_at_log_io. exact Hd. }
  destruct (recv_wait_signalled 1 c _ (cycle_at_impl _ _ _ _ (drained_signalled _) Hd1))
    as (v' & w' & Hr).
  destruct (recv_wait_establishes (drained v)
              (fun v' cy => v' = None /\ drained v cy /\ ch_closed (cy_ch cy) = true)
              c (drained_producer_stable _) (drained_recv_nil _) _ _ _ _ Hd1 Hr)
    as [Hfin _].
  assert (v' = None) as -> by (destruct Hfin as (cy & _ & Hnil & _); exact Hnil).
  rewrite Hr in H. cbn [is_ErrServerClosed] in H.
  do 2 eexists. split; [exact H|]. split; [|reflexivity].
  repeat split; try assumption.
  eapply cycle_at_impl; [|exact Hfin]. intros cy (_ & Hcy & _). exact Hcy.
Qed.

Lemma wedged_call (l : Listener) (c : nat) (v : error) (call : Call) (h : Handle) (w : World) :
  wedged l c v h w ->
  exists r w', do_call call h w = (Returns r, h, w') /\ wedged l c v h w'.
Proof.
  intros Hw. destruct call as [ctx during|ctx during]; cbn [do_call].
  - destruct Hw as (Hln & Hch & Hd). unfold Start. rewrite Hln.
    do 2 eexists. split; [reflexivity|]. repeat split; assumption.
  - destruct (wedged_Shutdown l c v ctx during h w Hw) as (r & w' & H & Hw' & _). eauto.
Qed.

Lemma wedged_run_calls (l : Listener) (c : nat) (v : error) (cs : list Call) :
  forall st h w, wedged l c v h w ->
    snd (fst (run_calls cs st h w)) = h /\ wedged l c v h (snd (run_calls cs st h w)).
Proof.
  induction cs as [|call cs IH]; intros st h w Hw; cbn [run_calls]; [auto|].
  destruct (wedged_call l c v call h w Hw) as (r & w' & -> & Hw'). apply IH. exact Hw'.
Qed.

(** X15. When the first [Shutdown] after a successful [Start] takes from
    the channel a value that is not the sentinel, the handle keeps its
    listener for good. Whatever calls follow, the handle is unchanged:
    every [Start] is rejected as already running, every [Shutdown] returns,
    and a [Shutdown] whose graceful shutdown reports no error returns nil
    with the listener still set. *)
Theorem handle_keeps_listener_after_serve_error
    (ctx1 ctx2 : Context) (m1 m2 : list Move) (h0 h1 h2 : Handle) (w0 w1 w2 : World)
    (r : error) :
  Start ctx1 m1 h0 w0 = (Returns None, h1, w1) ->
  srv_Shutdown (srv h1) (io_log w1) ctx2 = None ->
  Shutdown ctx2 m2 h1 w1 = (Returns r, h2, w2) ->
  ln h2 <> None ->
  forall cs st,
    let h := snd (fst (run_calls cs st h2 w2)) in
    let w := snd (run_calls cs st h2 w2) in
    h = h1 /\ ln h <> None
    /\ (forall ctx m, Start ctx m h w = (Returns (Some errAlreadyRunning), h, w))
    /\ (forall ctx m, exists r' w', Shutdown ctx m h w = (Returns r', h, w')
          /\ (srv_Shutdown (srv h) (io_log w) ctx = None -> r' = None)).
Proof.
  intros HStart Hsrv HShut Hset cs st.
  destruct (Start_ready_inv _ _ _ _ _ _ HStart) as (l & c & _ & _ & -> & Hu).
  pose proof (Shutdown_cases ctx2 m2
                (mkHandle (srv h0) (Some l) (Some c) (listenFunc h0) (newDialerFunc h0)) w1)
    as H. cbn [srv] in Hsrv. cbn [srv errCh listenFunc newDialerFunc ln] in H.
  rewrite Hsrv, HShut in H. cbv zeta in H. cbn [recv] in H.
  destruct (recv_wait 2 c _) as [v w2'| |] eqn:Hr; try discriminate H.
  destruct (is_ErrServerClosed v); [injection H as _ -> _; destruct Hset; reflexivity|].
  injection H as -> -> ->.
  destruct (recv_wait_establishes unread drained c unread_producer_stable
              unread_recv_drained _ _ _ _
              (cycle_at_run_moves _ _ m2 _ unread_producer_stable
                 (proj2 (cycle_at_log_io _ _ [EvSrvShutdown None] _) Hu)) Hr)
    as [Hd _].
  assert (Hw : wedged l c v
                 (mkHandle (srv h0) (Some l) (Some c) (listenFunc h0) (newDialerFunc h0)) w2')
    by (repeat split; [exact Hd]).
  destruct (wedged_run_calls l c v cs st _ _ Hw) as [Hh Hw'].
  cbv zeta. rewrite Hh. split; [reflexivity|]. split; [discriminate|]. split.
  - intros ctx m. reflexivity.
  - intros ctx m.
    destruct (wedged_Shutdown l c v ctx m _ _ Hw') as (r' & w' & Hcall & _ & Hnil). eauto.
Qed.

Lemma handle_keeps_listener_after_serve_error_witness :
  Start Fixture.background [] Fixture.h1' Fixture.w1'
  = (Returns (Some errAlreadyRunning), Fixture.h1', Fixture.w1').
Proof.
  destruct (handle_keeps_listener_after_serve_error Fixture.background Fixture.background
              [] [ServeReturns 0 (Some Fixture.accept_failed); Step 0; Step 0]
              Fixture.h0 Fixture.h1 Fixture.h1' empty_world Fixture.w1 Fixture.w1'
              (Some Fixture.accept_failed))
    with (cs := @nil Call) (st := Idle) as (_ & _ & H & _).
  - vm_compute. reflexivity.
  - reflexivity.
  - vm_compute. reflexivity.
  - vm_compute. discriminate.
  - exact (H Fixture.background []).
Defined.

(** ** The I/O of the two calls *)

(** X16. [Shutdown] calls the server's graceful shutdown once and does no
    other I/O: it closes no listener and dials nothing. It launches no
    goroutine, and it leaves the server, the channel and the two factories
    of the handle as they were. *)
Theorem Shutdown_only_shuts_down
    (ctx : Context) (during : list Move) (h : Handle) (w : World) :
  let h' := snd (fst (Shutdown ctx during h w)) in
  let w' := snd (Shutdown ctx during h w) in
  io_log w' = io_log w ++ [EvSrvShutdown (srv_Shutdown (srv h) (io_log w) ctx)]
  /\ length (cycles w') = length (cycles w)
  /\ srv h' = srv h /\ errCh h' = errCh h
  /\ listenFunc h' = listenFunc h /\ newDialerFunc h' = newDialerFunc h.
Proof.
  cbv zeta. split; [|split; [apply Shutdown_length|]];
    pose proof (Shutdown_cases ctx during h w) as H;
    (destruct (srv_Shutdown (srv h) (io_log w) ctx) as [err|];
     [rewrite H; repeat split; reflexivity|]);
    cbv zeta in H.
  - assert (Hw1 : io_log (run_moves during (log_io [EvSrvShutdown None] w))
                  = io_log w ++ [EvSrvShutdown None])
      by (rewrite io_log_run_moves; reflexivity).
    destruct (errCh h) as [c|]; cbn [recv] in H; [|rewrite H; exact Hw1].
    destruct (recv_wait 2 c _) as [v w1| |] eqn:Hr; try (rewrite H; exact Hw1).
    destruct (recv_wait_frame _ _ _ _ _ Hr) as (Hlog & _ & _).
    destruct (is_ErrServerClosed v); rewrite H; cbn [snd]; congruence.
  - destruct (recv (errCh h) _) as [v w1| |]; try (rewrite H; repeat split; reflexivity).
    destruct (is_ErrServerClosed v); rewrite H; repeat split; reflexivity.
Qed.

(** X17. An idle handle's [Start] listens once, on network "tcp" and on
    the server's address, or on ":0" when that is empty. When the listen
    fails that is all its I/O; otherwise the prober's conversation follows
    and, at most, the close of the listener just obtained: [Start] closes no
    other listener. *)
Theorem Start_io_footprint (ctx : Context) (during : list Move) (h : Handle) (w : World) :
  ln h = None ->
  let w' := snd (Start ctx during h w) in
  let addr := listen_addr (srv h) in
  (srv_Addr (srv h) = "" -> addr = ":0")
  /\ (srv_Addr (srv h) <> "" -> addr = srv_Addr (srv h))
  /\ match listenFunc h (io_log w) "tcp" addr with
     | inr _ => io_log w' = io_log w ++ [EvListen "tcp" addr]
     | inl l =>
         exists closing,
           io_log w' = io_log w ++ EvListen "tcp" addr :: snd (Start_waits ctx h l w) ++ closing
           /\ (closing = [] \/ closing = [EvListenerClose l])
     end.
Proof.
  intros Hln. cbv zeta. split; [|split].
  - intros H. unfold listen_addr. rewrite H. reflexivity.
  - intros H. unfold listen_addr. destruct (String.eqb_spec (srv_Addr (srv h)) ""); congruence.
  - unfold Start. rewrite Hln.
    destruct (listenFunc h (io_log w) "tcp" (listen_addr (srv h))) as [l|err]; [|reflexivity].
    destruct (Start_probe ctx during h l _) as [[c perr] w_sel] eqn:Hp.
    destruct (Start_probe_world _ _ _ _ _ _ _ _ Hp) as (_ & Hlog & _).
    cbn [log_io io_log] in Hlog. fold (Start_waits ctx h l w) in Hlog.
    rewrite <- app_assoc in Hlog. cbn [app] in Hlog.
    destruct perr as [e|].
    + destruct (try_recv c w_sel) as [[v w0]|] eqn:Hr; cbn [snd].
      * destruct (try_recv_frame _ _ _ _ Hr) as (Hlog0 & _ & _).
        exists []. rewrite app_nil_r. split; [congruence|auto].
      * exists [EvListenerClose l]. cbn [log_io io_log]. rewrite Hlog.
        rewrite <- app_assoc. cbn [app]. split; [reflexivity|auto].
    + cbn [snd]. exists []. rewrite app_nil_r. split; [exact Hlog|auto].
Qed.

Lemma Start_io_footprint_witness :
  io_log (snd (Start Fixture.background [] Scenario.h_in_use empty_world))
  = [EvListen "tcp" ":8000"].
Proof.
  destruct (Start_io_footprint Fixture.background [] Scenario.h_in_use empty_world)
    as (_ & _ & H).
  - reflexivity.
  - exact H.
Defined.
